(** * nvbandwidth-amd: memory endpoints, copy sizes, spin gate and scenario lookup

    A shallow embedding of the parts of [memcpy.cpp], [kernels.cpp] and
    [nvbandwidth.cpp] that the specification speaks about, and the
    properties of the specification stated over it.

    Conventions.
    - A C++ [unsigned int] is a [Z] in [0, 2^32), an [unsigned long long] or
      [size_t] a [Z] in [0, 2^64); arithmetic that can leave the range is
      wrapped explicitly with [wrap32] / [wrap64].
    - Device memory is a total map from addresses to bytes; pointer
      arithmetic inside one allocation is plain addition.
    - A [double] is a primitive binary64 float.
    - A loop whose counter can wrap round, or that waits for its
      environment, is run on fuel and returns [None] when the fuel is spent.
    - A trap (an integer division by zero, a failed assertion, an undefined
      conversion) is [None] as well, in functions that have no fuel.

    Layout: the model first, one module per part of the program
    ([Pattern], [Endpoint], [Copy], [Orchestrator], [SpinGate], [Driver]) and
    the concrete runs used further down ([Runs]); then the proofs, in the
    same order. *)

From Stdlib Require Import ZArith List Lia Bool String Ascii Floats.
From Stdlib Require Import DecimalString DecimalNat Permutation.
Import ListNotations.

Local Open Scope Z_scope.

(** ** Machine integers *)

Module Machine.

Definition wrap32 (z : Z) : Z := z mod 2 ^ 32.
Definition wrap64 (z : Z) : Z := z mod 2 ^ 64.

(** [~0ULL] *)
Definition ones64 : Z := 2 ^ 64 - 1.

(** Conversion of a value of an unsigned 32-bit type to [int]. *)
Definition to_int32 (z : Z) : Z :=
  let w := wrap32 z in if w <? 2 ^ 31 then w else w - 2 ^ 32.

Definition u32 (z : Z) : Prop := 0 <= z < 2 ^ 32.
Definition u64 (z : Z) : Prop := 0 <= z < 2 ^ 64.

End Machine.
Import Machine.

(** ** The xorshift pattern ([MemcpyNode::xorshift2MBPattern]) *)

Module Pattern.

(** [1024 * 1024 * 2], the size in bytes of the staging buffer. *)
Definition CHUNK : Z := 1024 * 1024 * 2.

(** [sizeof(unsigned int)] *)
Definition WORD : Z := 4.

(** The body of the generator loop: three shift-xor steps on a 32-bit value. *)
Definition xorshift (oldValue : Z) : Z :=
  let value := oldValue in
  let value := Z.lxor value (wrap32 (Z.shiftl value 13)) in
  let value := Z.lxor value (Z.shiftr value 17) in
  let value := Z.lxor value (wrap32 (Z.shiftl value 5)) in
  value.

(** The loop [for (n = 0; n < count; n++) { ...; buffer[n] = oldValue; }],
    producing the words it stores, in order. *)
Fixpoint xorshift_loop (count : nat) (oldValue : Z) : list Z :=
  match count with
  | O => []
  | S count' =>
      let value := xorshift oldValue in
      value :: xorshift_loop count' value
  end.

Definition xorshift2MBPattern (seed : Z) : list Z :=
  xorshift_loop (Z.to_nat (CHUNK / WORD)) seed.

End Pattern.
Import Pattern.

(** ** Memory endpoints ([MemcpyNode::memsetPattern], [MemcpyNode::memcmpPattern]) *)

Module Endpoint.

(** Byte-addressed memory: the device allocation, and the host staging
    buffers as well (addressed from 0). *)
Definition memory := Z -> Z.

Definition wf_memory (m : memory) : Prop := forall a, 0 <= m a < 256.

(** Byte [j] of a 32-bit word, little-endian as on the hosts and devices the
    program runs on. *)
Definition word_byte (w j : Z) : Z := (w / 2 ^ (8 * j)) mod 256.

(** An [unsigned int] array seen as bytes. *)
Definition bytes_of_words (words : list Z) : memory :=
  fun k => word_byte (nth (Z.to_nat (k / WORD)) words 0) (k mod WORD).

(** [devicePattern[x]] for a byte buffer read as [unsigned int*]. *)
Definition load32 (buf : memory) (x : Z) : Z :=
  buf (WORD * x) + buf (WORD * x + 1) * 2 ^ 8
  + buf (WORD * x + 2) * 2 ^ 16 + buf (WORD * x + 3) * 2 ^ 24.

(** [cuMemcpy(dst + dstPtr, src + srcPtr, len)] *)
Definition cuMemcpy (dst : memory) (dstPtr : Z) (src : memory) (srcPtr len : Z)
  : memory :=
  fun a =>
    if (dstPtr <=? a) && (a <? dstPtr + len)
    then src (srcPtr + (a - dstPtr))
    else dst a.

(** The chunk loop of [memsetPattern]; [n] is an [unsigned int], the chunk
    count an [unsigned long long]. Returns the advanced [_buffer] and the
    memory. *)
Fixpoint memset_chunks (fuel : nat) (pattern : memory) (_2MBchunkCount : Z)
    (n _buffer : Z) (m : memory) : option (Z * memory) :=
  match fuel with
  | O => None
  | S fuel' =>
      if n <? _2MBchunkCount then
        let m := cuMemcpy m _buffer pattern 0 CHUNK in
        memset_chunks fuel' pattern _2MBchunkCount
                      (wrap32 (n + 1)) (_buffer + CHUNK) m
      else Some (_buffer, m)
  end.

Definition memsetPattern (fuel : nat) (m : memory) (buffer size seed : Z)
  : option memory :=
  let _2MBchunkCount := size / CHUNK in
  let remaining := wrap64 (size - wrap64 (_2MBchunkCount * CHUNK)) in
  let pattern := bytes_of_words (xorshift2MBPattern seed) in
  match memset_chunks fuel pattern _2MBchunkCount 0 buffer m with
  | None => None
  | Some (_buffer, m) =>
      if negb (remaining =? 0)
      then Some (cuMemcpy m _buffer pattern 0 remaining)
      else Some m
  end.

(** [memcmp(a, b, len) != 0] *)
Fixpoint bytes_differ (len : nat) (i : Z) (a b : memory) : bool :=
  match len with
  | O => false
  | S len' => negb (a i =? b i) || bytes_differ len' (i + 1) a b
  end.

Definition memcmp_ne (a b : memory) (len : Z) : bool :=
  bytes_differ (Z.to_nat len) 0 a b.

(** The word loop [for (x = 0; x < limit; x++) if (devicePattern[x] !=
    pattern[x]) ...]: the first [x] at which it reports, if any. The limit
    is at most [CHUNK / WORD], so the 32-bit [x] does not wrap. *)
Fixpoint first_bad_word (limit : nat) (x : Z) (devicePattern : memory)
    (pattern : list Z) : option Z :=
  match limit with
  | O => None
  | S limit' =>
      if negb (load32 devicePattern x =? nth (Z.to_nat x) pattern 0)
      then Some x
      else first_bad_word limit' (x + 1) devicePattern pattern
  end.

(** How a check ends: it returns, or it prints an address and an offset and
    calls [std::abort]. *)
Inductive verdict : Type :=
| Passed
| Aborted (address offset : Z).

Inductive chunks_result : Type :=
| ChunkAbort (address offset : Z)
| ChunksDone (n _buffer : Z) (devicePattern : memory).

(** The chunk loop of [memcmpPattern]. *)
Fixpoint memcmp_chunks (fuel : nat) (m : memory) (buffer : Z)
    (pattern : list Z) (_2MBchunkCount : Z)
    (n _buffer : Z) (devicePattern : memory) : option chunks_result :=
  match fuel with
  | O => None
  | S fuel' =>
      if n <? _2MBchunkCount then
        let devicePattern := cuMemcpy devicePattern 0 m _buffer CHUNK in
        let next :=
          memcmp_chunks fuel' m buffer pattern _2MBchunkCount
                        (wrap32 (n + 1)) (_buffer + CHUNK) devicePattern in
        if memcmp_ne (bytes_of_words pattern) devicePattern CHUNK then
          match first_bad_word (Z.to_nat (CHUNK / WORD)) 0
                               devicePattern pattern with
          | Some x =>
              Some (ChunkAbort (_buffer + wrap32 (n * CHUNK) + x * WORD)
                               (wrap64 (_buffer - buffer + x * WORD)))
          | None => next
          end
        else next
      else Some (ChunksDone n _buffer devicePattern)
  end.

(** [stale] is what the freshly allocated staging buffer happens to hold. *)
Definition memcmpPattern (fuel : nat) (stale m : memory)
    (buffer size seed : Z) : option verdict :=
  let _2MBchunkCount := size / CHUNK in
  let remaining := wrap64 (size - wrap64 (_2MBchunkCount * CHUNK)) in
  let pattern := xorshift2MBPattern seed in
  match memcmp_chunks fuel m buffer pattern _2MBchunkCount 0 buffer stale with
  | None => None
  | Some (ChunkAbort address offset) => Some (Aborted address offset)
  | Some (ChunksDone n _buffer devicePattern) =>
      if negb (remaining =? 0) then
        let devicePattern := cuMemcpy devicePattern 0 m _buffer remaining in
        if memcmp_ne (bytes_of_words pattern) devicePattern remaining then
          match first_bad_word (Z.to_nat (remaining / WORD)) 0
                               devicePattern pattern with
          | Some x =>
              Some (Aborted (buffer + wrap32 (n * CHUNK) + x * WORD)
                            (wrap64 (_buffer - buffer + x * WORD)))
          | None => Some Passed
          end
        else Some Passed
      else Some Passed
  end.

(** The byte of the regenerated pattern that belongs at offset [o] of a
    buffer: the staging buffer is reused for every chunk. *)
Definition expected_byte (seed o : Z) : Z :=
  bytes_of_words (xorshift2MBPattern seed) (o mod CHUNK).

End Endpoint.
Import Endpoint.

(** ** Copy sizes ([copyKernel], [MemcpyOperationSM::getAdjustedCopySize]) *)

Module Copy.

(** Modelled from the spec: [_MiB] and [defaultBufferSize] are declared in a
    header that is not among the sources. [_MiB] is the number of bytes of a
    MiB; the default buffer size is the 64 MiB that the note printed by
    [main] names. *)
Definition _MiB : Z := 1024 * 1024.
Definition defaultBufferSize : Z := 64.

(** [sizeof(uint4)] *)
Definition sizeof_uint4 : Z := 16.

Section Device.

(** [numThreadPerBlock] comes from the same header; every result holds for
    any value of it. *)
Variable numThreadPerBlock : Z.

(** [unsigned int totalThreadCount = numSm * numThreadPerBlock] *)
Definition totalThreadCount (numSm : Z) : Z := wrap32 (numSm * numThreadPerBlock).

(** [MemcpyOperationSM::getAdjustedCopySize], for a stream on a device with
    [numSm] multiprocessors. [None]: the integer division by a zero
    [totalThreadCount]. *)
Definition getAdjustedCopySizeSM (size numSm : Z) : option Z :=
  let totalThreadCount := totalThreadCount numSm in
  if size <? defaultBufferSize * _MiB then
    let numUint4 := to_int32 (size / sizeof_uint4) in
    Some (wrap64 (numUint4 * sizeof_uint4))
  else
    let sizeInElement := size / sizeof_uint4 in
    if totalThreadCount =? 0 then None
    else
      let sizeInElement :=
        wrap64 (totalThreadCount * (sizeInElement / totalThreadCount)) in
      Some (wrap64 (sizeInElement * sizeof_uint4)).

(** What [copyKernel] launches and returns. *)
Record launch : Type := {
  grid : Z;
  block : Z;
  returned : Z
}.

(** [copyKernel]. [None]: an integer division by zero, by [block.x] for a
    size under 16 bytes or by [totalThreadCount]. *)
Definition copyKernel (size numSm : Z) : option launch :=
  let totalThreadCount := totalThreadCount numSm in
  if size <? defaultBufferSize * _MiB then
    let numUint4 := to_int32 (size / sizeof_uint4) in
    let block := wrap32 (Z.min numUint4 1024) in
    if block =? 0 then None
    else
      Some {| grid := wrap32 numUint4 / block;
              block := block;
              returned := wrap64 (numUint4 * sizeof_uint4) |}
  else
    let sizeInElement := size / sizeof_uint4 in
    if totalThreadCount =? 0 then None
    else
      let sizeInElement :=
        wrap64 (totalThreadCount * (sizeInElement / totalThreadCount)) in
      Some {| grid := numSm;
              block := numThreadPerBlock;
              returned := wrap64 (sizeInElement * sizeof_uint4) |}.

(** The two copy mechanisms. *)
Inductive mechanism : Type := CE | SM.

Definition getAdjustedCopySize (k : mechanism) (size numSm : Z) : option Z :=
  match k with
  | CE => Some size
  | SM => getAdjustedCopySizeSM size numSm
  end.

Definition memcpyFunc (k : mechanism) (copySize numSm : Z) : option Z :=
  match k with
  | CE => Some copySize
  | SM => option_map returned (copyKernel copySize numSm)
  end.

End Device.

End Copy.
Import Copy.

(** ** The orchestrator ([MemcpyOperation::doMemcpy]) *)

Module Orchestrator.

Record MemcpyNode : Type := {
  bufferSize : Z;
  nodeString : string
}.

(** One (source, destination) pair, with the multiprocessor count of the
    device whose context the pair's stream is created in. *)
Record Pair : Type := {
  srcNode : MemcpyNode;
  dstNode : MemcpyNode;
  numSm : Z
}.

(** Modelled from the spec: the enumeration is declared in [memcpy.h], which
    is not among the sources. The source names [SUM_BW] and [TOTAL_BW]; the
    spec calls the remaining mode [PER_PAIR] and lists the three in this
    order. *)
Inductive BandwidthValue : Type := PER_PAIR | SUM_BW | TOTAL_BW.

Definition enumerator (v : BandwidthValue) : Z :=
  match v with PER_PAIR => 0 | SUM_BW => 1 | TOTAL_BW => 2 end.

Definition BandwidthValue_eqb (a b : BandwidthValue) : bool :=
  enumerator a =? enumerator b.

(** A line sent to [VERBOSE], by the values it is printed from. *)
Inductive line : Type :=
| SampleLine (n : Z) (src dst : string) (bandwidth : Z)
| TotalLine (n : Z) (bandwidth : Z).

(** What the events of one trial measured, in milliseconds:
    [hipEventElapsedTime] from each pair's start to its end, and from pair
    0's start to [totalEnd]. *)
Record measurement : Type := {
  timeWithEvents : list float;
  totalTime : float
}.

(** [(unsigned long long) d] for a double: truncation; [None] where the
    value has no [unsigned long long] (the conversion is undefined). *)
Definition double_to_ull (d : float) : option Z :=
  match Prim2SF d with
  | S754_zero _ => Some 0
  | S754_finite s m e =>
      let t := if 0 <=? e then Z.pos m * 2 ^ e else Z.pos m / 2 ^ (- e) in
      if s then (if t =? 0 then Some 0 else None)
      else if t <? 2 ^ 64 then Some t else None
  | _ => None
  end.

(** [(double) z] for an [unsigned long long]: rounded to nearest even. *)
Definition ull_to_double (z : Z) : float :=
  SF2Prim (binary_normalize prec emax z 0 false).

(** [1e-9] and [1000.0] as doubles. *)
Definition giga : float := 0x1.12e0be826d695p-30%float.
Definition thousand : float := 0x1.f4p+9%float.

(** [(bytes * loopCount * 1000ull * 1000ull) / (unsigned long long)
    ((double) time * 1000.0)]; [None] on a division by zero or an undefined
    conversion. *)
Definition bandwidth_of (bytes loopCount : Z) (time : float) : option Z :=
  match double_to_ull (time * thousand)%float with
  | Some elapsedInUs =>
      if elapsedInUs =? 0 then None
      else Some (wrap64 (bytes * loopCount * 1000 * 1000) / elapsedInUs)
  | None => None
  end.

Section Run.

Variable numThreadPerBlock : Z.

(** [PerformanceStatistic::returnAppropriateMetric], from a header that is
    not among the sources: the median or the mean of the samples fed to the
    statistic. Every result holds for any function of the samples. *)
Variable returnAppropriateMetric : list float -> float.

Variable mech : mechanism.
Variable bandwidthValue : BandwidthValue.
Variable loopCount : Z.

(** [finalCopySize[i]], computed before the trials. *)
Definition finalCopySize (pairs : list Pair) (i : nat) : option Z :=
  match nth_error pairs i, nth_error pairs 0 with
  | Some p, Some p0 =>
      getAdjustedCopySize numThreadPerBlock mech
                          (bufferSize (srcNode p0)) (numSm p)
  | _, _ => None
  end.

(** [adjustedCopySizes[i]], returned by the timed copy of a trial. [None]
    also when the assertion on the pair's two buffer sizes fails. *)
Definition adjustedCopySizes (pairs : list Pair) (i : nat) : option Z :=
  match nth_error pairs i with
  | Some p =>
      if bufferSize (srcNode p) =? bufferSize (dstNode p)
      then memcpyFunc numThreadPerBlock mech (bufferSize (srcNode p)) (numSm p)
      else None
  | None => None
  end.

(** The state a run carries from trial to trial. *)
Record state : Type := {
  bandwidthStats : list (list float);
  totalBandwidth : list float;
  output : list line
}.

(** [bandwidthStats[i](sample)] *)
Fixpoint feed (i : nat) (sample : float) (stats : list (list float))
  : list (list float) :=
  match stats, i with
  | [], _ => []
  | s :: rest, O => (s ++ [sample]) :: rest
  | s :: rest, S i' => s :: feed i' sample rest
  end.

(** The condition under which a pair's sample line is printed, as written:
    [bandwidthValue == SUM_BW || TOTAL_BW || i == 0]. *)
Definition prints_sample (i : nat) : bool :=
  BandwidthValue_eqb bandwidthValue SUM_BW
  || negb (enumerator TOTAL_BW =? 0)
  || Nat.eqb i 0.

(** The loop over [bandwidthStats] after the copies of trial [n], from
    index [i] on. *)
Fixpoint sample_pairs (count : nat) (n : Z) (pairs : list Pair)
    (m : measurement) (i : nat) (st : state) : option state :=
  match count with
  | O => Some st
  | S count' =>
      match nth_error pairs i, adjustedCopySizes pairs i,
            nth_error (timeWithEvents m) i with
      | Some p, Some size, Some time =>
          match bandwidth_of size loopCount time with
          | Some bandwidth =>
              let st :=
                {| bandwidthStats :=
                     feed i (ull_to_double bandwidth) (bandwidthStats st);
                   totalBandwidth := totalBandwidth st;
                   output :=
                     if prints_sample i
                     then output st ++
                          [SampleLine n (nodeString (srcNode p))
                                      (nodeString (dstNode p)) bandwidth]
                     else output st |} in
              sample_pairs count' n pairs m (S i) st
          | None => None
          end
      | _, _, _ => None
      end
  end.

(** [for (size_t size : adjustedCopySizes) totalSize += size] *)
Fixpoint total_size (count : nat) (pairs : list Pair) (i : nat)
    (totalSize : Z) : option Z :=
  match count with
  | O => Some totalSize
  | S count' =>
      match adjustedCopySizes pairs i with
      | Some size => total_size count' pairs (S i) (wrap64 (totalSize + size))
      | None => None
      end
  end.

(** The measuring part of trial [n]. *)
Definition trial (n : Z) (pairs : list Pair) (m : measurement) (st : state)
  : option state :=
  match sample_pairs (List.length pairs) n pairs m 0 st with
  | Some st =>
      if BandwidthValue_eqb bandwidthValue TOTAL_BW then
        match total_size (List.length pairs) pairs 0 0 with
        | Some totalSize =>
            match bandwidth_of totalSize loopCount (totalTime m) with
            | Some bandwidth =>
                Some {| bandwidthStats := bandwidthStats st;
                        totalBandwidth :=
                          totalBandwidth st ++ [ull_to_double bandwidth];
                        output := output st ++ [TotalLine n bandwidth] |}
            | None => None
            end
        | None => None
        end
      else Some st
  | None => None
  end.

(** The sampling loop, one measurement per trial. *)
Fixpoint trials (n : Z) (pairs : list Pair) (ms : list measurement)
    (st : state) : option state :=
  match ms with
  | [] => Some st
  | m :: ms' =>
      match trial n pairs m st with
      | Some st => trials (n + 1) pairs ms' st
      | None => None
      end
  end.

(** The value returned after the trials. *)
Definition reduce (st : state) : option float :=
  if BandwidthValue_eqb bandwidthValue SUM_BW then
    Some (fold_left
            (fun sum stat => (sum + returnAppropriateMetric stat * giga)%float)
            (bandwidthStats st) 0%float)
  else if BandwidthValue_eqb bandwidthValue TOTAL_BW then
    Some (returnAppropriateMetric (totalBandwidth st) * giga)%float
  else
    match bandwidthStats st with
    | stat :: _ => Some (returnAppropriateMetric stat * giga)%float
    | [] => None
    end.

(** [doMemcpy] for a run in which every fill and check returns: the lines
    sent to [VERBOSE] and the returned bandwidth. The list [ms] holds the
    measurements of the [averageLoopCount] trials. *)
Definition doMemcpy (pairs : list Pair) (ms : list measurement)
  : option (list line * float) :=
  let st := {| bandwidthStats := map (fun _ => []) pairs;
               totalBandwidth := [];
               output := [] |} in
  match trials 0 pairs ms st with
  | Some st =>
      match reduce st with
      | Some r => Some (output st, r)
      | None => None
      end
  | None => None
  end.

(** For a group of the single pair [p]: the sample of a trial whose two
    spans are equal, and the samples of a run of such trials. *)
Definition single_sample (p : Pair) (m : measurement) : option float :=
  match adjustedCopySizes [p] 0 with
  | Some size =>
      option_map ull_to_double (bandwidth_of size loopCount (totalTime m))
  | None => None
  end.

Fixpoint single_samples (p : Pair) (ms : list measurement)
  : option (list float) :=
  match ms with
  | [] => Some []
  | m :: ms' =>
      match single_sample p m, single_samples p ms' with
      | Some d, Some l => Some (d :: l)
      | _, _ => None
      end
  end.

End Run.

(** Modelled from the spec: the mean of [PerformanceStatistic], "a running
    sum divided by count"; the class is declared in a header that is not
    among the sources. *)
Definition mean (samples : list float) : float :=
  (fold_left PrimFloat.add samples 0
   / ull_to_double (Z.of_nat (List.length samples)))%float.

End Orchestrator.
Import Orchestrator.

(** ** The spin gate ([spinKernel], [spinKernelDevice]) *)

Module SpinGate.

(** What the device observes while it spins: the value of [*latch] at its
    k-th read and the value of its k-th call of [clock64()]. *)
Record device : Type := {
  latch_at : nat -> Z;
  clock_at : nat -> Z
}.

Inductive exit : Type := Released | TimedOut.

(** The loop [while (!*latch) { if (timeoutClocks != ~0ULL && clock64() >
    endTime) break; }], with the number of reads done so far. *)
Fixpoint spin (fuel : nat) (d : device) (timeoutClocks endTime : Z)
    (reads clocks : nat) : option exit :=
  match fuel with
  | O => None
  | S fuel' =>
      if latch_at d reads =? 0 then
        if negb (timeoutClocks =? ones64) then
          if wrap64 (clock_at d clocks) >? endTime then Some TimedOut
          else spin fuel' d timeoutClocks endTime (S reads) (S clocks)
        else spin fuel' d timeoutClocks endTime (S reads) clocks
      else Some Released
  end.

Definition spinKernelDevice (fuel : nat) (d : device) (timeoutClocks : Z)
  : option exit :=
  let endTime := wrap64 (clock_at d 0 + timeoutClocks) in
  spin fuel d timeoutClocks endTime 0 1.

(** [unsigned long long timeoutClocks = clocksPerMs * timeoutMs], with
    [clocksPerMs] an [int]. *)
Definition timeoutClocks_of (clocksPerMs timeoutMs : Z) : Z :=
  wrap64 (wrap64 clocksPerMs * timeoutMs).

(** [spinKernel] on a device whose clock rate attribute is [clocksPerMs]. *)
Definition spinKernel (fuel : nat) (d : device) (clocksPerMs timeoutMs : Z)
  : option exit :=
  spinKernelDevice fuel d (timeoutClocks_of clocksPerMs timeoutMs).

End SpinGate.
Import SpinGate.

(** ** The scenario driver ([findTestcase], [runTestcase], the loop of [main]) *)

Module Driver.

Local Open Scope string_scope.

(** What [test->run(...)] does, as far as its caller can tell: it returns,
    it throws a [std::string], or a failed runtime call ends the process. *)
Inductive behaviour : Type :=
| Completes
| Throws (s : string)
| Fatal.

Record Testcase : Type := {
  testKey : string;
  filter : bool;
  run : behaviour
}.

(** [id.c_str()] as C reads it: up to the first NUL. *)
Fixpoint c_str (s : string) : string :=
  match s with
  | EmptyString => EmptyString
  | String c s' =>
      if Ascii.eqb c Ascii.zero then EmptyString else String c (c_str s')
  end.

Definition isspace (c : ascii) : bool :=
  let n := nat_of_ascii c in
  Nat.eqb n 32 || (Nat.leb 9 n && Nat.leb n 13).

Definition digit_of (c : ascii) : option Z :=
  let n := Z.of_nat (nat_of_ascii c) in
  if (48 <=? n)%Z && (n <=? 57)%Z then Some (n - 48)%Z else None.

Fixpoint skip_spaces (s : string) : string :=
  match s with
  | String c s' => if isspace c then skip_spaces s' else s
  | EmptyString => s
  end.

Fixpoint digits (acc : Z) (s : string) : Z * string :=
  match s with
  | String c s' =>
      match digit_of c with
      | Some d => digits (acc * 10 + d)%Z s'
      | None => (acc, s)
      end
  | EmptyString => (acc, s)
  end.

Definition LONG_MAX : Z := 2 ^ 63 - 1.
Definition LONG_MIN : Z := - 2 ^ 63.

(** [strtol(nptr, &p, 10)]: the value and what [p] is left pointing at.
    Without a digit nothing is consumed; a value out of range is clamped. *)
Definition strtol (nptr : string) : Z * string :=
  let s := skip_spaces nptr in
  let '(negative, s) :=
    match s with
    | String "-" s' => (true, s')
    | String "+" s' => (false, s')
    | _ => (false, s)
    end in
  match s with
  | String c _ =>
      match digit_of c with
      | Some _ =>
          let '(v, p) := digits 0 s in
          let v := if negative then (- v)%Z else v in
          (Z.max LONG_MIN (Z.min LONG_MAX v), p)
      | None => (0%Z, nptr)
      end
  | EmptyString => (0%Z, nptr)
  end.

(** What [findTestcase] can throw: the [std::string] it builds, or the
    [std::out_of_range] of [vector::at]. *)
Inductive thrown : Type :=
| StringError (s : string)
| OutOfRange.

Definition findTestcase (testcases : list Testcase) (id : string)
  : thrown + Testcase :=
  let '(index, p) := strtol (c_str id) in
  match p with
  | String _ _ =>
      match find (fun test => String.eqb (testKey test) id) testcases with
      | Some test => inr test
      | None => inl (StringError ("Testcase " ++ id ++ " not found!"))
      end
  | EmptyString =>
      if (Z.of_nat (List.length testcases) <=? wrap64 index)%Z
      then inl (StringError ("Testcase index " ++ id ++ " out of bound!"))
      else
        match nth_error testcases (Z.to_nat (wrap64 index)) with
        | Some test => inr test
        | None => inl OutOfRange
        end
  end.

Inductive event : Type :=
| Print (s : string)
| Run (key : string).

(** How a call ends: it returns to its caller, or the process is ended. *)
Inductive ending : Type := Returns | Terminates.

Definition endl : string := String (ascii_of_nat 10) EmptyString.

Definition runTestcase (testcases : list Testcase) (testcaseID : string)
  : list event * ending :=
  match findTestcase testcases testcaseID with
  | inr test =>
      if negb (filter test) then
        ([Print ("Waiving " ++ testKey test ++ "." ++ endl ++ endl)], Returns)
      else
        let out := [Print ("Running " ++ testKey test ++ "." ++ endl);
                    Run (testKey test)] in
        match run test with
        | Completes => (out, Returns)
        | Throws s => (out ++ [Print ("ERROR: " ++ s ++ endl)], Returns)%list
        | Fatal => (out, Terminates)
        end
  | inl (StringError s) => ([Print ("ERROR: " ++ s ++ endl)], Returns)
  | inl OutOfRange => ([], Terminates)
  end.

(** [for (const auto& testcaseIndex : testcasesToRun) runTestcase(...)] *)
Fixpoint runTestcases (testcases : list Testcase) (ids : list string)
  : list event * ending :=
  match ids with
  | [] => ([], Returns)
  | id :: rest =>
      match runTestcase testcases id with
      | (out, Returns) =>
          let '(out', e) := runTestcases testcases rest in
          ((out ++ out')%list, e)
      | (out, Terminates) => (out, Terminates)
      end
  end.

(** An identifier resolves to no scenario when it is a name (the number
    parser leaves characters unread) that is the key of no testcase, or a
    number that is at least the number of testcases. *)
Definition resolves_to_none (testcases : list Testcase) (id : string) : Prop :=
  match snd (strtol (c_str id)) with
  | String _ _ => forall t, In t testcases -> testKey t <> id
  | EmptyString =>
      Z.of_nat (List.length testcases) <= fst (strtol (c_str id))
  end.

End Driver.
Import Driver.

(** ** Decimal output and the scenario loop of [main] *)

Module Main.

(** [std::to_string] of an [int], and [operator<<] of an integer: decimal
    digits without leading zeros, after a minus sign for a negative value. *)
Definition to_string (z : Z) : string :=
  if z <? 0
  then String "-" (NilEmpty.string_of_uint (Nat.to_uint (Z.to_nat (- z))))
  else NilEmpty.string_of_uint (Nat.to_uint (Z.to_nat z)).

(** The end of [main]: without a requested testcase every testcase is run,
    looked up by its own key; otherwise the requested identifiers are. *)
Definition run_requested (testcases : list Testcase)
    (testcasesToRun : list string) : list event * ending :=
  match testcasesToRun with
  | [] => runTestcases testcases (map testKey testcases)
  | _ :: _ => runTestcases testcases testcasesToRun
  end.

(** What [runTestcase] does with a testcase once it is found. *)
Definition execute (test : Testcase) : list event * ending :=
  if negb (filter test) then
    ([Print ("Waiving " ++ testKey test ++ "." ++ endl ++ endl)%string],
     Returns)
  else
    let out := [Print ("Running " ++ testKey test ++ "." ++ endl)%string;
                Run (testKey test)] in
    match run test with
    | Completes => (out, Returns)
    | Throws s => (out ++ [Print ("ERROR: " ++ s ++ endl)%string], Returns)
    | Fatal => (out, Terminates)
    end.

(** Running testcases one after the other until one ends the process. *)
Fixpoint execute_all (tests : list Testcase) : list event * ending :=
  match tests with
  | [] => ([], Returns)
  | test :: rest =>
      match execute test with
      | (out, Returns) =>
          let '(out', e) := execute_all rest in (out ++ out', e)
      | (out, Terminates) => (out, Terminates)
      end
  end.

(** An identifier that [findTestcase] takes for a name: the number parser
    leaves characters unread. *)
Definition is_name (id : string) : Prop :=
  snd (strtol (c_str id)) <> EmptyString.

End Main.
Import Main.

(** ** The copy kernels ([simpleCopyKernel], [stridingMemcpyKernel]) and
    their launch by [copyKernel]

    The threads of a launch are run one after the other, in the order of a
    [schedule]; a thread writes no element that another thread of the
    launch reads or writes, so the order is left arbitrary. *)

Module Kernels.

(** [blockIdx.x] and [threadIdx.x] of a thread. *)
Record thread : Type := {
  blockIdx : Z;
  threadIdx : Z
}.

(** The threads of a launch [<<<gridDim, blockDim>>>]. *)
Definition threads_of (gridDim blockDim : Z) : list thread :=
  flat_map
    (fun b => map (fun t => {| blockIdx := Z.of_nat b;
                               threadIdx := Z.of_nat t |})
                  (seq 0 (Z.to_nat blockDim)))
    (seq 0 (Z.to_nat gridDim)).

Fixpoint run_threads (body : thread -> memory -> option memory)
    (schedule : list thread) (m : memory) : option memory :=
  match schedule with
  | [] => Some m
  | t :: rest =>
      match body t m with
      | Some m => run_threads body rest m
      | None => None
      end
  end.

(** A [uint4] read into a register, and written from one: 16 bytes. *)
Definition load_uint4 (m : memory) (p : Z) : memory := fun k => m (p + k).

Definition store_uint4 (m : memory) (p : Z) (v : memory) : memory :=
  cuMemcpy m p v 0 sizeof_uint4.

(** One thread of [simpleCopyKernel]; [i] is the [unsigned int] counter of
    its loop, [loopCount] an [unsigned long long]. *)
Fixpoint simpleCopyKernel_loop (fuel : nat) (blockDim : Z) (t : thread)
    (loopCount dst src i : Z) (m : memory) : option memory :=
  match fuel with
  | O => None
  | S fuel' =>
      if i <? loopCount then
        let idx := to_int32 (wrap32 (blockIdx t * blockDim) + threadIdx t) in
        let offset := wrap64 (idx * sizeof_uint4) in
        let m := store_uint4 m (dst + offset) (load_uint4 m (src + offset)) in
        simpleCopyKernel_loop fuel' blockDim t loopCount dst src
                              (wrap32 (i + 1)) m
      else Some m
  end.

Definition simpleCopyKernel (fuel : nat) (blockDim : Z)
    (loopCount dst src : Z) (t : thread) (m : memory) : option memory :=
  simpleCopyKernel_loop fuel blockDim t loopCount dst src 0 m.

(** The twelve registers [pipe_0] ... [pipe_11] of the unrolled loop. *)
Definition pipes : list Z := [0; 1; 2; 3; 4; 5; 6; 7; 8; 9; 10; 11].

(** [while (cdst < dstBigEnd)]: twelve loads, each followed by [csrc +=
    totalThreadCount], then twelve stores, each followed by [cdst +=
    totalThreadCount]. [stride] is [totalThreadCount] elements in bytes. *)
Fixpoint big_chunks (fuel : nat) (stride dstBigEnd cdst csrc : Z)
    (m : memory) : option (Z * Z * memory) :=
  match fuel with
  | O => None
  | S fuel' =>
      if cdst <? dstBigEnd then
        let loaded :=
          map (fun j => load_uint4 m (csrc + j * stride)) pipes in
        let csrc := csrc + 12 * stride in
        let m :=
          fold_left
            (fun m jp => store_uint4 m (cdst + fst jp * stride) (snd jp))
            (combine pipes loaded) m in
        let cdst := cdst + 12 * stride in
        big_chunks fuel' stride dstBigEnd cdst csrc m
      else Some (cdst, csrc, m)
  end.

(** [while (cdst < dstEnd) { *cdst = *csrc; cdst += totalThreadCount; csrc
    += totalThreadCount; }] *)
Fixpoint small_chunks (fuel : nat) (stride dstEnd cdst csrc : Z)
    (m : memory) : option memory :=
  match fuel with
  | O => None
  | S fuel' =>
      if cdst <? dstEnd then
        let m := store_uint4 m cdst (load_uint4 m csrc) in
        small_chunks fuel' stride dstEnd (cdst + stride) (csrc + stride) m
      else Some m
  end.

(** The loop [for (unsigned int i = 0; i < loopCount; i++)] of a thread of
    [stridingMemcpyKernel], [dst] and [src] already advanced by [from]. *)
Fixpoint stridingMemcpyKernel_loop (fuel : nat)
    (stride dstBigEnd dstEnd dst src loopCount i : Z) (m : memory)
  : option memory :=
  match fuel with
  | O => None
  | S fuel' =>
      if i <? loopCount then
        match big_chunks fuel' stride dstBigEnd dst src m with
        | Some (cdst, csrc, m) =>
            match small_chunks fuel' stride dstEnd cdst csrc m with
            | Some m =>
                stridingMemcpyKernel_loop fuel' stride dstBigEnd dstEnd
                                          dst src loopCount (wrap32 (i + 1)) m
            | None => None
            end
        | None => None
        end
      else Some m
  end.

Definition stridingMemcpyKernel (fuel : nat) (blockDim : Z)
    (totalThreadCount loopCount dst src chunkSizeInElement : Z)
    (t : thread) (m : memory) : option memory :=
  let from := wrap32 (wrap32 (blockDim * blockIdx t) + threadIdx t) in
  let bigChunkSizeInElement := chunkSizeInElement / 12 in
  let dst := dst + from * sizeof_uint4 in
  let src := src + from * sizeof_uint4 in
  let dstBigEnd :=
    dst + wrap64 (wrap64 (bigChunkSizeInElement * 12) * totalThreadCount)
          * sizeof_uint4 in
  let dstEnd :=
    dst + wrap64 (chunkSizeInElement * totalThreadCount) * sizeof_uint4 in
  stridingMemcpyKernel_loop fuel (totalThreadCount * sizeof_uint4)
                            dstBigEnd dstEnd dst src loopCount 0 m.

Section Launch.

Variable numThreadPerBlock : Z.

(** [copyKernel] with the kernel it launches run on memory [m]: the memory
    after the kernel and the size returned. The threads of the launch run
    one after the other, each to its end, in the order that [schedule]
    gives them. *)
Definition copyKernel_run (fuel : nat)
    (schedule : list thread -> list thread)
    (dstBuffer srcBuffer size numSm loopCount : Z) (m : memory)
  : option (memory * Z) :=
  let totalThreadCount := totalThreadCount numThreadPerBlock numSm in
  if size <? defaultBufferSize * _MiB then
    let numUint4 := to_int32 (size / sizeof_uint4) in
    let block := wrap32 (Z.min numUint4 1024) in
    if block =? 0 then None
    else
      let grid := wrap32 numUint4 / block in
      match run_threads
              (simpleCopyKernel fuel block loopCount dstBuffer srcBuffer)
              (schedule (threads_of grid block)) m with
      | Some m => Some (m, wrap64 (numUint4 * sizeof_uint4))
      | None => None
      end
  else
    let sizeInElement := size / sizeof_uint4 in
    if totalThreadCount =? 0 then None
    else
      let sizeInElement :=
        wrap64 (totalThreadCount * (sizeInElement / totalThreadCount)) in
      let chunkSizeInElement := sizeInElement / totalThreadCount in
      let gridDim := wrap32 numSm in
      let blockDim := wrap32 numThreadPerBlock in
      match run_threads
              (stridingMemcpyKernel fuel blockDim totalThreadCount loopCount
                                    dstBuffer srcBuffer chunkSizeInElement)
              (schedule (threads_of gridDim blockDim)) m with
      | Some m => Some (m, wrap64 (sizeInElement * sizeof_uint4))
      | None => None
      end.

End Launch.

(** The region of [n] bytes at [dst] and the region of [n] bytes at [src]
    share no byte. *)
Definition disjoint (dst src n : Z) : Prop :=
  forall i j, 0 <= i < n -> 0 <= j < n -> src + i <> dst + j.

(** Memory [m'] is memory [m] with the 16-byte elements of the set [S],
    counted from [dst], replaced by the elements that [m] holds at the same
    index from [src]. *)
Definition copied (dst src : Z) (S : Z -> Prop) (m m' : memory) : Prop :=
  forall a,
    (S ((a - dst) / sizeof_uint4) -> m' a = m (src + (a - dst)))
    /\ (~ S ((a - dst) / sizeof_uint4) -> m' a = m a).

End Kernels.
Import Kernels.

(** ** The data of one sample ([MemcpyOperation::doMemcpy]) *)

Module Transfer.

(** [MemcpyOperationCE::memcpyFunc]: the loop [for (unsigned int l = 0; l <
    loopCount; l++) cuMemcpyAsync(dst, src, copySize, stream)], the copies
    done in the order of the stream. [loopCount] is an [unsigned long
    long]. *)
Fixpoint memcpyAsync_loop (fuel : nat) (dst src copySize loopCount l : Z)
    (m : memory) : option memory :=
  match fuel with
  | O => None
  | S fuel' =>
      if l <? loopCount then
        memcpyAsync_loop fuel' dst src copySize loopCount (wrap32 (l + 1))
                         (cuMemcpy m dst m src copySize)
      else Some m
  end.

Definition memcpyFuncCE (fuel : nat) (dst src copySize loopCount : Z)
    (m : memory) : option (memory * Z) :=
  match memcpyAsync_loop fuel dst src copySize loopCount 0 m with
  | Some m => Some (m, copySize)
  | None => None
  end.

(** The seeds of the two fills. *)
Definition seed_dst : Z := 0xCAFEBABE.
Definition seed_src : Z := 0xBAADF00D.

Section Sample.

Variable numThreadPerBlock : Z.
Variable schedule : list thread -> list thread.

(** [WARMUP_COUNT] is defined in a header that is not among the sources. *)
Variable WARMUP_COUNT : Z.

(** [memcpyFunc] of either mechanism on memory: the memory after the copies
    and the size returned. *)
Definition memcpyFunc_run (k : mechanism) (fuel : nat)
    (dst src copySize numSm loopCount : Z) (m : memory)
  : option (memory * Z) :=
  match k with
  | CE => memcpyFuncCE fuel dst src copySize loopCount m
  | SM => copyKernel_run numThreadPerBlock fuel schedule dst src copySize
                         numSm loopCount m
  end.

(** What one pass of the sampling loop of [doMemcpy] does to the buffers of
    a pair: the two fills over [finalCopySize], the warm-up copy, the timed
    copy and, unless [skipVerification], the check of the destination. The
    result is how the check ends and the size that the timed copy returns.
    [firstSize] is the buffer size of the first pair's source, from which
    [finalCopySize] is precomputed. *)
Definition sample (k : mechanism) (skipVerification : bool) (fuel : nat)
    (stale : memory) (dstBuffer srcBuffer bufferSize firstSize numSm
     loopCount : Z) (m : memory) : option (verdict * Z) :=
  match getAdjustedCopySize numThreadPerBlock k firstSize numSm with
  | None => None
  | Some finalCopySize =>
      match memsetPattern fuel m dstBuffer finalCopySize seed_dst with
      | None => None
      | Some m =>
          match memsetPattern fuel m srcBuffer finalCopySize seed_src with
          | None => None
          | Some m =>
              match memcpyFunc_run k fuel dstBuffer srcBuffer bufferSize
                                   numSm WARMUP_COUNT m with
              | None => None
              | Some (m, _) =>
                  match memcpyFunc_run k fuel dstBuffer srcBuffer bufferSize
                                       numSm loopCount m with
                  | None => None
                  | Some (m, adjustedCopySize) =>
                      if skipVerification
                      then Some (Passed, adjustedCopySize)
                      else
                        match memcmpPattern fuel stale m dstBuffer
                                            finalCopySize seed_src with
                        | None => None
                        | Some v => Some (v, adjustedCopySize)
                        end
                  end
              end
          end
      end
  end.

End Sample.

End Transfer.
Import Transfer.

(** ** Concrete runs

    The inputs at which the theorems below are instantiated or the code is
    evaluated. *)

Module Runs.

(** The memory of the failing run: the pattern of seed [0xBAADF00D] with
    the byte at offset 4 changed. *)
Definition trailing_byte_corrupted : memory :=
  fun a =>
    if a =? 4
    then Z.lxor (expected_byte 3131961357 4) 1
    else expected_byte 3131961357 a.

Definition node (size : Z) (name : string) : MemcpyNode :=
  {| bufferSize := size; nodeString := name |}.

(** Two pairs of different capacities: 64 MiB between devices 0 and 1,
    128 MiB between devices 2 and 3. *)
Definition uneven_pairs : list Pair :=
  [ {| srcNode := node (64 * _MiB) "Device 0";
       dstNode := node (64 * _MiB) "Device 1"; numSm := 108 |};
    {| srcNode := node (128 * _MiB) "Device 2";
       dstNode := node (128 * _MiB) "Device 3"; numSm := 108 |} ].

(** Two pairs of 64 MiB and one trial that measured 2 ms and 3 ms. *)
Definition two_pairs : list Pair :=
  [ {| srcNode := node (64 * _MiB) "Device 0";
       dstNode := node (64 * _MiB) "Device 1"; numSm := 108 |};
    {| srcNode := node (64 * _MiB) "Device 1";
       dstNode := node (64 * _MiB) "Device 0"; numSm := 108 |} ].

Definition one_trial : list measurement :=
  [ {| timeWithEvents := [2%float; 3%float]; totalTime := 3%float |} ].

Definition one_pair : Pair :=
  {| srcNode := node (64 * _MiB) "Host";
     dstNode := node (64 * _MiB) "Device 0"; numSm := 108 |}.

Definition three_trials : list measurement :=
  [ {| timeWithEvents := [2%float]; totalTime := 2%float |};
    {| timeWithEvents := [4%float]; totalTime := 4%float |};
    {| timeWithEvents := [2.5%float]; totalTime := 2.5%float |} ].

(** A device at 1 GHz whose latch the host has not set, observed from
    five million cycles after its clock started. *)
Definition held_device : device :=
  {| latch_at := fun _ => 0;
     clock_at := fun k => 5000000 + Z.of_nat k |}.

Definition two_testcases : list Testcase :=
  [ {| testKey := "host_to_device_memcpy_ce"; filter := true;
       run := Completes |};
    {| testKey := "device_to_host_memcpy_ce"; filter := true;
       run := Completes |} ].

End Runs.
Import Runs.

(** ** Proof support *)

(** Comparisons as propositions, and case analysis on the comparisons in
    the goal. *)
Ltac reflect_comparisons :=
  repeat match goal with
    | H : (_ <=? _) = true |- _ => apply Z.leb_le in H
    | H : (_ <=? _) = false |- _ => apply Z.leb_gt in H
    | H : (_ <? _) = true |- _ => apply Z.ltb_lt in H
    | H : (_ <? _) = false |- _ => apply Z.ltb_ge in H
    | H : (_ =? _) = true |- _ => apply Z.eqb_eq in H
    | H : (_ =? _) = false |- _ => apply Z.eqb_neq in H
    end.

Ltac case_comparisons :=
  repeat match goal with
    | |- context [?a <=? ?b] => destruct (a <=? b) eqn:?
    | |- context [?a <? ?b] => destruct (a <? b) eqn:?
    end;
  cbn [andb negb]; reflect_comparisons.

(** Quotients and remainders by constants. *)
Ltac divmod := Z.div_mod_to_equations; lia.

(** ** Machine integers and the generator *)

Lemma wrap32_range z : 0 <= wrap32 z < 2 ^ 32.
Proof. unfold wrap32. apply Z.mod_pos_bound. lia. Qed.


Lemma wrap32_small z : 0 <= z < 2 ^ 32 -> wrap32 z = z.
Proof. intros. unfold wrap32. apply Z.mod_small. assumption. Qed.

Lemma wrap64_small z : 0 <= z < 2 ^ 64 -> wrap64 z = z.
Proof. intros. unfold wrap64. apply Z.mod_small. assumption. Qed.

Lemma testbit_high_u32 z i : u32 z -> 32 <= i -> Z.testbit z i = false.
Proof.
  intros [Hlo Hhi] Hi.
  destruct (Z.eq_dec z 0) as [->|Hnz]; [apply Z.testbit_0_l|].
  apply Z.bits_above_log2; [lia|].
  assert (Z.log2 z < 32) by (apply Z.log2_lt_pow2; lia). lia.
Qed.

Lemma u32_of_bits z :
  0 <= z -> (forall i, 32 <= i -> Z.testbit z i = false) -> u32 z.
Proof.
  intros Hz Hb. split; [assumption|].
  destruct (Z.eq_dec z 0) as [->|Hnz]; [reflexivity|].
  apply Z.log2_lt_pow2; [lia|].
  destruct (Z_lt_le_dec (Z.log2 z) 32) as [|Hge]; [assumption|].
  specialize (Hb (Z.log2 z) Hge).
  rewrite Z.bit_log2 in Hb by lia. discriminate.
Qed.

Lemma lxor_u32 a b : u32 a -> u32 b -> u32 (Z.lxor a b).
Proof.
  intros Ha Hb. apply u32_of_bits.
  - apply Z.lxor_nonneg. unfold u32 in *. lia.
  - intros i Hi. rewrite Z.lxor_spec.
    rewrite (testbit_high_u32 a i Ha Hi), (testbit_high_u32 b i Hb Hi).
    reflexivity.
Qed.

Lemma shiftr_u32 a n : u32 a -> 0 <= n -> u32 (Z.shiftr a n).
Proof.
  intros [Hlo Hhi] Hn. rewrite Z.shiftr_div_pow2 by assumption.
  assert (0 < 2 ^ n) by (apply Z.pow_pos_nonneg; lia).
  split.
  - apply Z.div_pos; lia.
  - apply Z.le_lt_trans with a; [|assumption].
    apply Z.div_le_upper_bound; nia.
Qed.

Lemma xorshift_u32 v : u32 v -> u32 (xorshift v).
Proof.
  intro Hv. unfold xorshift. cbv zeta.
  repeat first [ apply lxor_u32 | apply wrap32_range
               | apply shiftr_u32; [|lia] | assumption ].
Qed.

(** Bits of the two kinds of step. *)
Lemma lstep_bit v s i :
  0 <= s -> 0 <= i < 32 ->
  Z.testbit (Z.lxor v (wrap32 (Z.shiftl v s))) i
  = xorb (Z.testbit v i) (Z.testbit v (i - s)).
Proof.
  intros Hs Hi. rewrite Z.lxor_spec. unfold wrap32.
  rewrite Z.mod_pow2_bits_low by lia.
  rewrite Z.shiftl_spec by lia. reflexivity.
Qed.

Lemma rstep_bit v s i :
  0 <= s -> 0 <= i ->
  Z.testbit (Z.lxor v (Z.shiftr v s)) i
  = xorb (Z.testbit v i) (Z.testbit v (i + s)).
Proof.
  intros Hs Hi. rewrite Z.lxor_spec, Z.shiftr_spec by lia. reflexivity.
Qed.

(** A left shift-xor step is injective on 32-bit values: bit [i] of the
    argument is recovered from bit [i] of the result and bit [i - s] of the
    argument, lowest bits first. *)
Lemma lstep_inj s a b :
  0 < s -> u32 a -> u32 b ->
  Z.lxor a (wrap32 (Z.shiftl a s)) = Z.lxor b (wrap32 (Z.shiftl b s)) ->
  a = b.
Proof.
  intros Hs Ha Hb Heq.
  apply Z.bits_inj'. intros i Hi.
  destruct (Z_lt_le_dec i 32) as [Hlt|Hge].
  2:{ rewrite (testbit_high_u32 a i Ha Hge), (testbit_high_u32 b i Hb Hge).
      reflexivity. }
  revert Hlt. pattern i. apply Zlt_0_ind; [|assumption].
  clear i Hi. intros i IH Hi Hlt.
  assert (Hbit := f_equal (fun z => Z.testbit z i) Heq). cbv beta in Hbit.
  rewrite !lstep_bit in Hbit by lia.
  assert (Hprev : Z.testbit a (i - s) = Z.testbit b (i - s)).
  { destruct (Z_lt_le_dec (i - s) 0) as [Hneg|Hnn].
    - rewrite !Z.testbit_neg_r by lia. reflexivity.
    - apply IH; lia. }
  rewrite Hprev in Hbit.
  destruct (Z.testbit a i), (Z.testbit b i), (Z.testbit b (i - s));
    simpl in Hbit; congruence.
Qed.

(** A right shift-xor step is injective too: here the highest bits come
    first, since bit [i + s] of a 32-bit value is clear for [i + s >= 32]. *)
Lemma rstep_inj s a b :
  0 < s -> u32 a -> u32 b ->
  Z.lxor a (Z.shiftr a s) = Z.lxor b (Z.shiftr b s) ->
  a = b.
Proof.
  intros Hs Ha Hb Heq.
  assert (Hdown : forall k : nat, forall i,
             0 <= i -> 32 - i <= Z.of_nat k ->
             Z.testbit a i = Z.testbit b i).
  { induction k as [|k IH]; intros i Hi Hk.
    - rewrite (testbit_high_u32 a i Ha), (testbit_high_u32 b i Hb) by lia.
      reflexivity.
    - assert (Hbit := f_equal (fun z => Z.testbit z i) Heq). cbv beta in Hbit.
      rewrite !rstep_bit in Hbit by lia.
      assert (Hnext : Z.testbit a (i + s) = Z.testbit b (i + s))
        by (apply IH; lia).
      rewrite Hnext in Hbit.
      destruct (Z.testbit a i), (Z.testbit b i), (Z.testbit b (i + s));
        simpl in Hbit; congruence. }
  apply Z.bits_inj'. intros i Hi. apply (Hdown 32%nat); lia.
Qed.

(** One step of the generator is injective on 32-bit values. *)
Lemma xorshift_inj a b : u32 a -> u32 b -> xorshift a = xorshift b -> a = b.
Proof.
  intros Ha Hb. unfold xorshift. cbv zeta. intro H.
  apply lstep_inj in H;
    [| lia | repeat first [ apply lxor_u32 | apply wrap32_range
                          | apply shiftr_u32; [|lia] | assumption ] .. ].
  apply rstep_inj in H;
    [| lia | repeat first [ apply lxor_u32 | apply wrap32_range
                          | apply shiftr_u32; [|lia] | assumption ] .. ].
  apply lstep_inj in H; [assumption | lia | assumption ..].
Qed.

(** ** Filling and checking a buffer *)

Lemma CHUNK_eq : CHUNK = 2097152.
Proof. reflexivity. Qed.

Lemma WORD_eq : WORD = 4.
Proof. reflexivity. Qed.

Lemma words_per_chunk : CHUNK / WORD = 524288.
Proof. reflexivity. Qed.

(** For a size that fits [unsigned long long], the chunk count and the rest
    are the quotient and the remainder by [CHUNK]. *)
Lemma remaining_eq size :
  u64 size -> wrap64 (size - wrap64 (size / CHUNK * CHUNK)) = size mod CHUNK.
Proof.
  intros [Hlo Hhi]. rewrite CHUNK_eq.
  assert (0 <= size / 2097152 * 2097152 <= size)
    by divmod.
  rewrite (wrap64_small (size / 2097152 * 2097152)) by lia.
  rewrite wrap64_small by lia.
  divmod.
Qed.

(** The fill loop: with fuel for its iterations, and a chunk count that the
    32-bit counter can reach, it writes the staging buffer once per chunk. *)
Lemma memset_chunks_spec fuel pattern count :
  count < 2 ^ 32 ->
  forall n _buffer m,
    0 <= n <= count ->
    (Z.to_nat (count - n) < fuel)%nat ->
    exists m',
      memset_chunks fuel pattern count n _buffer m
      = Some (_buffer + (count - n) * CHUNK, m')
      /\ forall a,
          m' a = if (_buffer <=? a) && (a <? _buffer + (count - n) * CHUNK)
                 then pattern ((a - _buffer) mod CHUNK)
                 else m a.
Proof.
  intro Hcount. induction fuel as [|fuel IH]; intros n _buffer m Hn Hfuel.
  - lia.
  - cbn [memset_chunks]. destruct (n <? count) eqn:Hlt.
    + apply Z.ltb_lt in Hlt.
      rewrite (wrap32_small (n + 1)) by lia.
      destruct (IH (n + 1) (_buffer + CHUNK)
                   (cuMemcpy m _buffer pattern 0 CHUNK))
        as (m' & Hrun & Hm'); [lia | lia |].
      exists m'. split.
      * rewrite Hrun. do 2 f_equal. lia.
      * intro a. rewrite Hm'. unfold cuMemcpy. rewrite CHUNK_eq.
        case_comparisons; try lia; try reflexivity; f_equal; divmod.
    + apply Z.ltb_ge in Hlt. assert (n = count) by lia. subst n.
      exists m. split.
      * do 2 f_equal. lia.
      * intro a. case_comparisons; try reflexivity. lia.
Qed.

(** The bound on the chunk count is needed: the 32-bit counter never
    reaches a count of 2^32 or more, and the loop does not end. *)
Lemma memset_chunks_counter_wraps fuel pattern count :
  2 ^ 32 <= count ->
  forall n _buffer m,
    0 <= n < 2 ^ 32 ->
    memset_chunks fuel pattern count n _buffer m = None.
Proof.
  intro Hcount. induction fuel as [|fuel IH]; intros n _buffer m Hn;
    cbn [memset_chunks]; [reflexivity|].
  destruct (n <? count) eqn:Hlt; reflect_comparisons; [|lia].
  apply IH. apply wrap32_range.
Qed.

(** What [memsetPattern] leaves in memory: inside the buffer the byte at
    offset [o] is byte [o mod CHUNK] of the staging buffer; outside, memory
    is unchanged. *)
Lemma memsetPattern_spec fuel m buffer size seed :
  0 <= size < 2 ^ 53 ->
  (Z.to_nat (size / CHUNK) < fuel)%nat ->
  exists m',
    memsetPattern fuel m buffer size seed = Some m'
    /\ (forall o, 0 <= o < size -> m' (buffer + o) = expected_byte seed o)
    /\ (forall a, ~ (buffer <= a < buffer + size) -> m' a = m a).
Proof.
  intros Hsize Hfuel. unfold memsetPattern.
  rewrite remaining_eq by (unfold u64; lia).
  assert (Hc : 0 <= size / CHUNK < 2 ^ 32) by (rewrite CHUNK_eq; divmod).
  destruct (memset_chunks_spec fuel
              (bytes_of_words (xorshift2MBPattern seed)) (size / CHUNK)
              (proj2 Hc) 0 buffer m) as (m1 & Hrun & Hm1); [lia | |].
  { rewrite Z.sub_0_r. assumption. }
  rewrite Hrun. rewrite Z.sub_0_r in *.
  assert (Hdm : size = size / CHUNK * CHUNK + size mod CHUNK
                /\ 0 <= size mod CHUNK < CHUNK
                /\ 0 <= size / CHUNK * CHUNK)
    by (rewrite CHUNK_eq; divmod).
  destruct Hdm as (Hdm & Hrem & Hfull).
  set (full := size / CHUNK * CHUNK) in *.
  destruct (size mod CHUNK =? 0) eqn:Hz; cbn [negb]; reflect_comparisons.
  - (* whole chunks only *)
    exists m1. split; [reflexivity|]. split.
    + intros o Ho. rewrite Hm1. unfold expected_byte.
      replace (buffer + o - buffer) with o by lia.
      case_comparisons; try reflexivity; lia.
    + intros a Ha. rewrite Hm1. case_comparisons; try reflexivity; lia.
  - (* whole chunks and a final partial one *)
    eexists. split; [reflexivity|]. split.
    + intros o Ho. unfold cuMemcpy, expected_byte. rewrite Hm1.
      replace (buffer + o - buffer) with o by lia.
      case_comparisons; try lia; try reflexivity.
      f_equal. replace (buffer + o - (buffer + full)) with (o - full) by lia.
      subst full. rewrite Z.add_0_l.
      apply Z.mod_unique with (q := size / CHUNK); lia.
    + intros a Ha. unfold cuMemcpy. rewrite Hm1.
      case_comparisons; try lia; reflexivity.
Qed.

(** *** Bytes and words *)

Lemma bytes_differ_false len :
  forall i a b,
    bytes_differ len i a b = false
    <-> (forall j, i <= j < i + Z.of_nat len -> a j = b j).
Proof.
  induction len as [|len IH]; intros i a b; cbn [bytes_differ].
  - split; [intros _ j Hj; lia | reflexivity].
  - rewrite orb_false_iff, negb_false_iff, Z.eqb_eq, IH. split.
    + intros [H0 Hrest] j Hj.
      destruct (Z.eq_dec j i) as [->|Hne]; [assumption|].
      apply Hrest. lia.
    + intro H. split; [apply H; lia|]. intros j Hj. apply H. lia.
Qed.

Lemma memcmp_ne_false a b len :
  0 <= len ->
  memcmp_ne a b len = false <-> (forall j, 0 <= j < len -> a j = b j).
Proof.
  intro Hlen. unfold memcmp_ne. rewrite bytes_differ_false.
  rewrite Z2Nat.id by assumption. reflexivity.
Qed.

Lemma word_byte_range w j : 0 <= word_byte w j < 256.
Proof. unfold word_byte. apply Z.mod_pos_bound. lia. Qed.

(** A 32-bit word is the little-endian sum of its four bytes. *)
Lemma word_of_bytes w :
  u32 w ->
  word_byte w 0 + word_byte w 1 * 2 ^ 8
  + word_byte w 2 * 2 ^ 16 + word_byte w 3 * 2 ^ 24 = w.
Proof.
  intros [Hlo Hhi]. unfold word_byte.
  change (2 ^ (8 * 0)) with 1. change (2 ^ (8 * 1)) with 256.
  change (2 ^ (8 * 2)) with 65536. change (2 ^ (8 * 3)) with 16777216.
  change (2 ^ 8) with 256. change (2 ^ 16) with 65536.
  change (2 ^ 24) with 16777216. change (2 ^ 32) with 4294967296 in Hhi.
  divmod.
Qed.

(** Four bytes are the bytes of their little-endian sum. *)
Lemma bytes_of_sum b0 b1 b2 b3 :
  0 <= b0 < 256 -> 0 <= b1 < 256 -> 0 <= b2 < 256 -> 0 <= b3 < 256 ->
  let w := b0 + b1 * 2 ^ 8 + b2 * 2 ^ 16 + b3 * 2 ^ 24 in
  word_byte w 0 = b0 /\ word_byte w 1 = b1
  /\ word_byte w 2 = b2 /\ word_byte w 3 = b3.
Proof.
  intros H0 H1 H2 H3 w. subst w. unfold word_byte.
  change (2 ^ (8 * 0)) with 1. change (2 ^ (8 * 1)) with 256.
  change (2 ^ (8 * 2)) with 65536. change (2 ^ (8 * 3)) with 16777216.
  change (2 ^ 8) with 256. change (2 ^ 16) with 65536.
  change (2 ^ 24) with 16777216.
  repeat split; divmod.
Qed.

Lemma bytes_of_words_at words x i :
  0 <= x -> 0 <= i < 4 ->
  bytes_of_words words (WORD * x + i)
  = word_byte (nth (Z.to_nat x) words 0) i.
Proof.
  intros Hx Hi. unfold bytes_of_words. rewrite WORD_eq.
  replace ((4 * x + i) / 4) with x by divmod.
  replace ((4 * x + i) mod 4) with i by divmod.
  reflexivity.
Qed.

(** A word of a byte buffer equals a 32-bit value exactly when its four
    bytes are the bytes of that value. *)
Lemma load32_of_bytes buf x w :
  u32 w ->
  (forall i, 0 <= i < 4 -> buf (WORD * x + i) = word_byte w i) ->
  load32 buf x = w.
Proof.
  intros Hw Hb. unfold load32.
  rewrite <- (Z.add_0_r (WORD * x)) at 1.
  rewrite !Hb by lia. apply word_of_bytes. assumption.
Qed.

Lemma bytes_of_load32 buf x w :
  (forall i, 0 <= i < 4 -> 0 <= buf (WORD * x + i) < 256) ->
  load32 buf x = w ->
  forall i, 0 <= i < 4 -> buf (WORD * x + i) = word_byte w i.
Proof.
  intros Hwf Hload i Hi. subst w. unfold load32.
  pose proof (Hwf 0 ltac:(lia)) as W0. rewrite Z.add_0_r in W0.
  destruct (bytes_of_sum _ _ _ _ W0 (Hwf 1 ltac:(lia))
                         (Hwf 2 ltac:(lia)) (Hwf 3 ltac:(lia)))
    as (E0 & E1 & E2 & E3).
  assert (Hcases : i = 0 \/ i = 1 \/ i = 2 \/ i = 3) by lia.
  destruct Hcases as [ -> | [ -> | [ -> | -> ] ] ]; symmetry;
    [rewrite Z.add_0_r | | | ]; assumption.
Qed.

(** *** The generated words *)

Lemma xorshift_loop_length count :
  forall seed, List.length (xorshift_loop count seed) = count.
Proof.
  induction count as [|count IH]; intro seed; cbn [xorshift_loop List.length].
  - reflexivity.
  - rewrite IH. reflexivity.
Qed.

Lemma xorshift_loop_u32 count :
  forall seed, u32 seed -> Forall u32 (xorshift_loop count seed).
Proof.
  induction count as [|count IH]; intros seed Hs; cbn [xorshift_loop].
  - constructor.
  - constructor; [apply xorshift_u32; assumption|].
    apply IH. apply xorshift_u32. assumption.
Qed.

Lemma nth_u32 (l : list Z) k : Forall u32 l -> u32 (nth k l 0).
Proof.
  intro H. revert k. induction H as [|w l Hw Hl IH]; intros [|k]; cbn [nth];
    try (unfold u32; lia); auto.
Qed.

Lemma pattern_word_u32 seed k :
  u32 seed -> u32 (nth k (xorshift2MBPattern seed) 0).
Proof.
  intro Hs. apply nth_u32. apply xorshift_loop_u32. assumption.
Qed.

Lemma pattern_first_word seed :
  nth 0 (xorshift2MBPattern seed) 0 = xorshift seed.
Proof.
  unfold xorshift2MBPattern. rewrite words_per_chunk.
  replace 524288 with (Z.succ 524287) by reflexivity.
  rewrite Z2Nat.inj_succ by lia. reflexivity.
Qed.

(** The staging buffer, read back as words, gives the generated words. *)
Lemma load32_pattern seed x :
  u32 seed -> 0 <= x ->
  load32 (bytes_of_words (xorshift2MBPattern seed)) x
  = nth (Z.to_nat x) (xorshift2MBPattern seed) 0.
Proof.
  intros Hs Hx. apply load32_of_bytes.
  - apply pattern_word_u32. assumption.
  - intros i Hi. apply bytes_of_words_at; assumption.
Qed.

(** *** The word loop and the chunk loop of the check *)

Lemma first_bad_word_none limit :
  forall x dev pattern,
    first_bad_word limit x dev pattern = None
    <-> (forall y, x <= y < x + Z.of_nat limit ->
                   load32 dev y = nth (Z.to_nat y) pattern 0).
Proof.
  induction limit as [|limit IH]; intros x dev pattern;
    cbn [first_bad_word].
  - split; [intros _ y Hy; lia | reflexivity].
  - destruct (load32 dev x =? nth (Z.to_nat x) pattern 0) eqn:E; cbn [negb].
    + apply Z.eqb_eq in E. rewrite IH. split.
      * intros H y Hy. destruct (Z.eq_dec y x) as [->|Hne]; [assumption|].
        apply H. lia.
      * intros H y Hy. apply H. lia.
    + apply Z.eqb_neq in E. split; [discriminate|].
      intro H. exfalso. apply E. apply H. lia.
Qed.

Lemma first_bad_word_some limit :
  forall x dev pattern y,
    first_bad_word limit x dev pattern = Some y ->
    x <= y < x + Z.of_nat limit
    /\ load32 dev y <> nth (Z.to_nat y) pattern 0
    /\ (forall z, x <= z < y -> load32 dev z = nth (Z.to_nat z) pattern 0).
Proof.
  induction limit as [|limit IH]; intros x dev pattern y;
    cbn [first_bad_word]; [discriminate|].
  destruct (load32 dev x =? nth (Z.to_nat x) pattern 0) eqn:E; cbn [negb].
  - apply Z.eqb_eq in E. intro H. apply IH in H.
    destruct H as (Hr & Hne & Hfirst).
    split; [lia|]. split; [assumption|].
    intros z Hz. destruct (Z.eq_dec z x) as [->|Hzx]; [assumption|].
    apply Hfirst. lia.
  - apply Z.eqb_neq in E. intro H. injection H as <-.
    split; [lia|]. split; [assumption|]. intros z Hz. lia.
Qed.

(** When the word loop finds nothing in [limit] words of well-formed bytes,
    the bytes of those words are the bytes of the pattern: over whole words
    [memcmp] and the word loop agree. *)
Lemma word_loop_covers_words limit dev pattern :
  (forall k, 0 <= k < WORD * Z.of_nat limit -> 0 <= dev k < 256) ->
  first_bad_word limit 0 dev pattern = None ->
  forall k, 0 <= k < WORD * Z.of_nat limit ->
            bytes_of_words pattern k = dev k.
Proof.
  intros Hwf Hnone k Hk. rewrite first_bad_word_none in Hnone.
  rewrite WORD_eq in *.
  assert (Hk4 : k = WORD * (k / 4) + k mod 4 /\ 0 <= k mod 4 < 4
                /\ 0 <= k / 4 < Z.of_nat limit)
    by (rewrite WORD_eq; divmod).
  destruct Hk4 as (Hsplit & Hi & Hx).
  rewrite Hsplit. rewrite bytes_of_words_at by lia.
  symmetry. apply bytes_of_load32; [| apply Hnone; lia | assumption].
  intros i Hi'. apply Hwf. rewrite WORD_eq. lia.
Qed.

Lemma cuMemcpy_read dev m p len k :
  0 <= k < len -> cuMemcpy dev 0 m p len k = m (p + k).
Proof.
  intros Hk. unfold cuMemcpy. case_comparisons; try lia.
  f_equal. lia.
Qed.

Lemma words_per_chunk_nat : Z.of_nat (Z.to_nat (CHUNK / WORD)) = 524288.
Proof. rewrite Z2Nat.id; [apply words_per_chunk | rewrite words_per_chunk; lia]. Qed.

(** The chunk loop on a region that holds the pattern in every chunk: it
    runs to the end. *)
Lemma memcmp_chunks_pass m buffer pattern count :
  count < 2 ^ 32 ->
  forall fuel n _buffer dev,
    0 <= n <= count ->
    (Z.to_nat (count - n) < fuel)%nat ->
    (forall o, 0 <= o < (count - n) * CHUNK ->
               m (_buffer + o) = bytes_of_words pattern (o mod CHUNK)) ->
    exists dev',
      memcmp_chunks fuel m buffer pattern count n _buffer dev
      = Some (ChunksDone count (_buffer + (count - n) * CHUNK) dev').
Proof.
  intro Hcount. induction fuel as [|fuel IH]; intros n _buffer dev Hn Hfuel Hm.
  - lia.
  - cbn [memcmp_chunks]. destruct (n <? count) eqn:Hlt.
    + apply Z.ltb_lt in Hlt. rewrite (wrap32_small (n + 1)) by lia.
      set (dev1 := cuMemcpy dev 0 m _buffer CHUNK).
      assert (Heq : memcmp_ne (bytes_of_words pattern) dev1 CHUNK = false).
      { apply memcmp_ne_false; [rewrite CHUNK_eq; lia|].
        intros j Hj. subst dev1. rewrite cuMemcpy_read by assumption.
        rewrite Hm by (rewrite CHUNK_eq in *; lia).
        rewrite Z.mod_small by assumption. reflexivity. }
      rewrite Heq.
      destruct (IH (n + 1) (_buffer + CHUNK) dev1) as (dev' & Hrun);
        [lia | lia | |].
      * intros o Ho. replace (_buffer + CHUNK + o) with (_buffer + (o + CHUNK))
          by lia.
        rewrite Hm by (rewrite CHUNK_eq in *; lia).
        f_equal. rewrite CHUNK_eq. divmod.
      * exists dev'. rewrite Hrun. do 2 f_equal. lia.
    + apply Z.ltb_ge in Hlt. assert (n = count) by lia. subst n.
      exists dev. do 2 f_equal. lia.
Qed.

(** The chunk loop on well-formed memory: it aborts, or it runs to the end
    and then every chunk it read holds the pattern. *)
Lemma memcmp_chunks_total m buffer pattern count :
  wf_memory m ->
  count < 2 ^ 32 ->
  forall fuel n _buffer dev,
    0 <= n <= count ->
    (Z.to_nat (count - n) < fuel)%nat ->
    (exists address offset,
        memcmp_chunks fuel m buffer pattern count n _buffer dev
        = Some (ChunkAbort address offset))
    \/ (exists dev',
          memcmp_chunks fuel m buffer pattern count n _buffer dev
          = Some (ChunksDone count (_buffer + (count - n) * CHUNK) dev')
          /\ forall o, 0 <= o < (count - n) * CHUNK ->
                       m (_buffer + o) = bytes_of_words pattern (o mod CHUNK)).
Proof.
  intros Hwf Hcount.
  induction fuel as [|fuel IH]; intros n _buffer dev Hn Hfuel.
  - lia.
  - cbn [memcmp_chunks]. destruct (n <? count) eqn:Hlt.
    + apply Z.ltb_lt in Hlt. rewrite (wrap32_small (n + 1)) by lia.
      set (dev1 := cuMemcpy dev 0 m _buffer CHUNK).
      assert (Hdev1 : forall k, 0 <= k < CHUNK -> dev1 k = m (_buffer + k))
        by (intros k Hk; subst dev1; apply cuMemcpy_read; assumption).
      assert (Hchunk :
                (exists x, first_bad_word (Z.to_nat (CHUNK / WORD)) 0
                                          dev1 pattern = Some x
                           /\ memcmp_ne (bytes_of_words pattern) dev1 CHUNK
                              = true)
                \/ memcmp_ne (bytes_of_words pattern) dev1 CHUNK = false).
      { destruct (memcmp_ne (bytes_of_words pattern) dev1 CHUNK) eqn:Hne;
          [|right; reflexivity].
        destruct (first_bad_word (Z.to_nat (CHUNK / WORD)) 0 dev1 pattern)
          as [x|] eqn:Hscan; [left; exists x; split; reflexivity|].
        exfalso.
        assert (Hall : memcmp_ne (bytes_of_words pattern) dev1 CHUNK = false).
        { apply memcmp_ne_false; [rewrite CHUNK_eq; lia|].
          intros j Hj.
          apply (word_loop_covers_words (Z.to_nat (CHUNK / WORD))).
          - intros k Hk. rewrite words_per_chunk_nat, WORD_eq in Hk.
            rewrite Hdev1 by (rewrite CHUNK_eq; lia). apply Hwf.
          - assumption.
          - rewrite words_per_chunk_nat, WORD_eq. rewrite CHUNK_eq in Hj. lia. }
        congruence. }
      destruct Hchunk as [(x & Hscan & Hne) | Heq].
      * left. rewrite Hne, Hscan. eauto.
      * rewrite Heq.
        destruct (IH (n + 1) (_buffer + CHUNK) dev1) as
          [(a & o & Hrun) | (dev' & Hrun & Hok)]; [lia | lia | |].
        -- left. eauto.
        -- right. exists dev'. split.
           ++ rewrite Hrun. do 2 f_equal. lia.
           ++ intros o Ho. rewrite memcmp_ne_false in Heq
                by (rewrite CHUNK_eq; lia).
              destruct (Z_lt_le_dec o CHUNK) as [Hfirst|Hlater].
              ** rewrite Z.mod_small by lia.
                 rewrite <- Hdev1 by lia. symmetry. apply Heq. lia.
              ** replace (_buffer + o) with (_buffer + CHUNK + (o - CHUNK))
                   by lia.
                 rewrite Hok by (rewrite CHUNK_eq in *; lia).
                 f_equal. rewrite CHUNK_eq. divmod.
    + apply Z.ltb_ge in Hlt. assert (n = count) by lia. subst n.
      right. exists dev. split; [do 2 f_equal; lia|].
      intros o Ho. lia.
Qed.

(** *** Round trip, discrimination and periodicity *)

(** C3. For every capacity below 2^53 bytes (the sizes whose chunk count the
    32-bit loop counter can reach) and every seed, [memsetPattern] with a
    seed followed by [memcmpPattern] with the same seed over the same size
    returns without a mismatch: both loops end, and the check does not
    abort. *)
Theorem fill_then_check_passes fuel stale m buffer size seed :
  0 <= size < 2 ^ 53 ->
  (Z.to_nat (size / CHUNK) < fuel)%nat ->
  exists m',
    memsetPattern fuel m buffer size seed = Some m'
    /\ memcmpPattern fuel stale m' buffer size seed = Some Passed.
Proof.
  intros Hsize Hfuel.
  destruct (memsetPattern_spec fuel m buffer size seed Hsize Hfuel)
    as (m' & Hfill & Hin & _).
  exists m'. split; [assumption|].
  unfold memcmpPattern. rewrite remaining_eq by (unfold u64; lia).
  assert (Hdm : size = size / CHUNK * CHUNK + size mod CHUNK
                /\ 0 <= size mod CHUNK < CHUNK
                /\ 0 <= size / CHUNK * CHUNK
                /\ 0 <= size / CHUNK < 2 ^ 32)
    by (rewrite CHUNK_eq; divmod).
  destruct Hdm as (Hdm & Hrem & Hfull & Hc).
  destruct (memcmp_chunks_pass m' buffer (xorshift2MBPattern seed)
              (size / CHUNK) (proj2 Hc) fuel 0 buffer stale)
    as (dev' & Hrun).
  - lia.
  - rewrite Z.sub_0_r. assumption.
  - intros o Ho. rewrite Z.sub_0_r in Ho. rewrite Hin by lia.
    unfold expected_byte. reflexivity.
  - rewrite Hrun, Z.sub_0_r.
    destruct (size mod CHUNK =? 0) eqn:Hz; cbn [negb]; [reflexivity|].
    set (full := size / CHUNK * CHUNK) in *.
    assert (Heq : memcmp_ne (bytes_of_words (xorshift2MBPattern seed))
                    (cuMemcpy dev' 0 m' (buffer + full) (size mod CHUNK))
                    (size mod CHUNK) = false).
    { apply memcmp_ne_false; [lia|]. intros j Hj.
      rewrite cuMemcpy_read by assumption.
      replace (buffer + full + j) with (buffer + (full + j)) by lia.
      rewrite Hin by lia. unfold expected_byte. f_equal.
      apply Z.mod_unique with (q := size / CHUNK); subst full; lia. }
    rewrite Heq. reflexivity.
Qed.

Lemma fill_then_check_passes_witness :
  exists m',
    memsetPattern 2 (fun _ => 0) 4096 (CHUNK + 5) 3405691582 = Some m'
    /\ memcmpPattern 2 (fun _ => 7) m' 4096 (CHUNK + 5) 3405691582
       = Some Passed.
Proof.
  apply (fill_then_check_passes 2 (fun _ => 7) (fun _ => 0) 4096
                                (CHUNK + 5) 3405691582).
  - vm_compute. split; [discriminate | reflexivity].
  - vm_compute. lia.
Defined.

(** C4. For distinct 32-bit seeds S1 and S2 and a buffer of at least 4
    bytes (below 2^53), [memsetPattern] with S1 followed by [memcmpPattern]
    with S2 aborts at the first word: the reported address is the start of
    the buffer and the reported offset is 0. *)
Theorem distinct_seeds_abort_at_offset_0 fuel stale m buffer size S1 S2 :
  u32 S1 -> u32 S2 -> S1 <> S2 ->
  4 <= size < 2 ^ 53 ->
  (Z.to_nat (size / CHUNK) < fuel)%nat ->
  exists m',
    memsetPattern fuel m buffer size S1 = Some m'
    /\ memcmpPattern fuel stale m' buffer size S2 = Some (Aborted buffer 0).
Proof.
  intros H1 H2 Hne Hsize Hfuel.
  destruct (memsetPattern_spec fuel m buffer size S1) as (m' & Hfill & Hin & _);
    [lia | assumption |].
  exists m'. split; [assumption|].
  (* the first word read back is the first word generated from S1 *)
  assert (Hfirst : forall dev len, 4 <= len <= size -> len <= CHUNK ->
            load32 (cuMemcpy dev 0 m' buffer len) 0 = xorshift S1).
  { intros dev len Hlen HlenC. rewrite <- pattern_first_word.
    apply load32_of_bytes; [apply pattern_word_u32; assumption|].
    intros i Hi. rewrite WORD_eq, Z.mul_0_r, Z.add_0_l.
    rewrite cuMemcpy_read by lia. rewrite Hin by lia.
    unfold expected_byte. rewrite Z.mod_small by (rewrite CHUNK_eq in *; lia).
    replace i with (WORD * 0 + i) at 1 by (rewrite WORD_eq; lia).
    apply bytes_of_words_at; lia. }
  assert (Hdiff : xorshift S1 <> xorshift S2)
    by (intro E; apply Hne; apply xorshift_inj; assumption).
  (* hence memcmp differs and the word loop stops at x = 0 *)
  assert (Hcmp : forall dev len, 4 <= len <= size -> len <= CHUNK ->
            memcmp_ne (bytes_of_words (xorshift2MBPattern S2))
                      (cuMemcpy dev 0 m' buffer len) len = true).
  { intros dev len Hlen HlenC.
    destruct (memcmp_ne _ _ len) eqn:E; [reflexivity|]. exfalso.
    rewrite memcmp_ne_false in E by lia.
    apply Hdiff. rewrite <- (Hfirst dev len Hlen HlenC).
    rewrite <- pattern_first_word.
    apply load32_of_bytes; [apply pattern_word_u32; assumption|].
    intros i Hi. rewrite WORD_eq, Z.mul_0_r, Z.add_0_l.
    rewrite <- E by lia.
    replace i with (WORD * 0 + i) at 1 by (rewrite WORD_eq; lia).
    apply bytes_of_words_at; lia. }
  assert (Hscan : forall dev len limit, 4 <= len <= size -> len <= CHUNK ->
            first_bad_word (S limit) 0 (cuMemcpy dev 0 m' buffer len)
                           (xorshift2MBPattern S2) = Some 0).
  { intros dev len limit Hlen HlenC. cbn [first_bad_word].
    rewrite Hfirst by assumption. change (Z.to_nat 0) with 0%nat.
    rewrite pattern_first_word.
    destruct (xorshift S1 =? xorshift S2) eqn:E; [|reflexivity].
    apply Z.eqb_eq in E. contradiction. }
  unfold memcmpPattern. rewrite remaining_eq by (unfold u64; lia).
  destruct fuel as [|fuel]; [lia|]. cbn [memcmp_chunks].
  destruct (0 <? size / CHUNK) eqn:Hc.
  - (* at least one whole chunk *)
    apply Z.ltb_lt in Hc.
    assert (CHUNK <= size) by (rewrite CHUNK_eq in *; divmod).
    rewrite Hcmp by (rewrite CHUNK_eq in *; lia).
    replace (Z.to_nat (CHUNK / WORD)) with (S (Z.to_nat 524287))
      by (rewrite words_per_chunk; replace 524288 with (Z.succ 524287)
            by reflexivity; rewrite Z2Nat.inj_succ by lia; reflexivity).
    rewrite Hscan by (rewrite CHUNK_eq in *; lia).
    do 2 f_equal.
    + rewrite Z.mul_0_l, wrap32_small by lia. lia.
    + replace (buffer - buffer + 0 * WORD) with 0 by lia. reflexivity.
  - (* the whole buffer is the final partial chunk *)
    apply Z.ltb_ge in Hc.
    assert (Hsmall : size / CHUNK = 0 /\ size mod CHUNK = size)
      by (rewrite CHUNK_eq in *; divmod).
    destruct Hsmall as [Hq Hr]. rewrite Hr.
    destruct (size =? 0) eqn:Hz; [apply Z.eqb_eq in Hz; lia|]. cbn [negb].
    assert (size < CHUNK)
      by (rewrite CHUNK_eq in *; divmod).
    rewrite Hcmp by lia.
    assert (Hlimit : exists limit, Z.to_nat (size / WORD) = S limit).
    { exists (Z.to_nat (size / WORD - 1)).
      rewrite <- Z2Nat.inj_succ
        by (rewrite WORD_eq; divmod).
      f_equal. lia. }
    destruct Hlimit as (limit & ->).
    rewrite Hscan by lia.
    do 2 f_equal.
    + rewrite Z.mul_0_l, wrap32_small by lia. lia.
    + replace (buffer - buffer + 0 * WORD) with 0 by lia. reflexivity.
Qed.

Lemma distinct_seeds_abort_at_offset_0_witness :
  exists m',
    memsetPattern 1 (fun _ => 0) 4096 64 3405691582 = Some m'
    /\ memcmpPattern 1 (fun _ => 0) m' 4096 64 3131961357
       = Some (Aborted 4096 0).
Proof.
  apply (distinct_seeds_abort_at_offset_0 1 (fun _ => 0) (fun _ => 0) 4096 64
                                          3405691582 3131961357).
  - vm_compute. split; [discriminate | reflexivity].
  - vm_compute. split; [discriminate | reflexivity].
  - discriminate.
  - vm_compute. split; [discriminate | reflexivity].
  - vm_compute. lia.
Defined.

Lemma expected_byte_periodic seed o :
  expected_byte seed (o + CHUNK) = expected_byte seed o.
Proof.
  unfold expected_byte. f_equal. rewrite CHUNK_eq.
  divmod.
Qed.

(** C10. For every seed and every fill size above 2 MiB (below 2^53),
    [memsetPattern] returns and leaves at offset [o] byte [o mod 2 MiB] of
    the one staging buffer that [xorshift2MBPattern] filled, so the contents
    repeat with period 2 MiB: the byte at [o] equals the byte at
    [o + 2 MiB] wherever both lie in the filled region. And a
    [memcmpPattern] that passes has found in every whole chunk the bytes of
    that same staging buffer. *)
Theorem fill_is_chunk_periodic fuel m buffer size seed :
  CHUNK < size < 2 ^ 53 ->
  (Z.to_nat (size / CHUNK) < fuel)%nat ->
  exists m',
    memsetPattern fuel m buffer size seed = Some m'
    /\ (forall o, 0 <= o < size ->
          m' (buffer + o)
          = bytes_of_words (xorshift2MBPattern seed) (o mod CHUNK))
    /\ (forall o, 0 <= o -> o + CHUNK < size ->
          m' (buffer + o) = m' (buffer + (o + CHUNK)))
    /\ (forall stale m2,
          wf_memory m2 ->
          memcmpPattern fuel stale m2 buffer size seed = Some Passed ->
          forall n k, 0 <= n < size / CHUNK -> 0 <= k < CHUNK ->
            m2 (buffer + (n * CHUNK + k))
            = bytes_of_words (xorshift2MBPattern seed) k).
Proof.
  intros Hsize Hfuel.
  destruct (memsetPattern_spec fuel m buffer size seed) as (m' & Hfill & Hin & _);
    [rewrite CHUNK_eq in Hsize; lia | assumption |].
  exists m'. split; [assumption|]. split; [|split].
  - intros o Ho. rewrite Hin by assumption.
    unfold expected_byte. reflexivity.
  - intros o Ho Hlt. rewrite !Hin by (rewrite CHUNK_eq in *; lia).
    symmetry. apply expected_byte_periodic.
  - intros stale m2 Hwf Hpass n k Hn Hk.
    unfold memcmpPattern in Hpass.
    assert (Hc : size / CHUNK < 2 ^ 32)
      by (rewrite CHUNK_eq in *; divmod).
    destruct (memcmp_chunks_total m2 buffer (xorshift2MBPattern seed)
                (size / CHUNK) Hwf Hc fuel 0 buffer stale)
      as [(a & off & Hrun) | (dev' & Hrun & Hok)].
    + lia.
    + rewrite Z.sub_0_r. assumption.
    + rewrite Hrun in Hpass. discriminate.
    + rewrite Z.sub_0_r in Hok. rewrite Hok.
      * f_equal. rewrite CHUNK_eq in *. divmod.
      * rewrite CHUNK_eq in *. nia.
Qed.

Lemma fill_is_chunk_periodic_witness :
  exists m',
    memsetPattern 3 (fun _ => 0) 0 (2 * CHUNK + 8) 3131961357 = Some m'
    /\ (forall o, 0 <= o < 2 * CHUNK + 8 ->
          m' (0 + o)
          = bytes_of_words (xorshift2MBPattern 3131961357) (o mod CHUNK))
    /\ (forall o, 0 <= o -> o + CHUNK < 2 * CHUNK + 8 ->
          m' (0 + o) = m' (0 + (o + CHUNK)))
    /\ (forall stale m2,
          wf_memory m2 ->
          memcmpPattern 3 stale m2 0 (2 * CHUNK + 8) 3131961357
          = Some Passed ->
          forall n k, 0 <= n < (2 * CHUNK + 8) / CHUNK -> 0 <= k < CHUNK ->
            m2 (0 + (n * CHUNK + k))
            = bytes_of_words (xorshift2MBPattern 3131961357) k).
Proof.
  apply (fill_is_chunk_periodic 3 (fun _ => 0) 0 (2 * CHUNK + 8) 3131961357).
  - vm_compute. split; reflexivity.
  - vm_compute. lia.
Defined.

(** X11. A byte that differs from the pattern inside a buffer whose size is
    a multiple of the word size always ends the check in [std::abort]: the
    word loop then covers every byte that [memcmp] compared. *)
Theorem mismatch_in_whole_words_aborts fuel stale m buffer size seed o :
  wf_memory m ->
  0 <= size < 2 ^ 53 ->
  size mod WORD = 0 ->
  (Z.to_nat (size / CHUNK) < fuel)%nat ->
  0 <= o < size ->
  m (buffer + o) <> expected_byte seed o ->
  exists address offset,
    memcmpPattern fuel stale m buffer size seed
    = Some (Aborted address offset).
Proof.
  intros Hwf Hsize Hword Hfuel Ho Hbad.
  unfold memcmpPattern. rewrite remaining_eq by (unfold u64; lia).
  assert (Hdm : size = size / CHUNK * CHUNK + size mod CHUNK
                /\ 0 <= size mod CHUNK < CHUNK
                /\ 0 <= size / CHUNK * CHUNK
                /\ 0 <= size / CHUNK < 2 ^ 32
                /\ (size mod CHUNK) mod WORD = 0)
    by (rewrite CHUNK_eq, WORD_eq in *; divmod).
  destruct Hdm as (Hdm & Hrem & Hfull & Hc & Hremw).
  destruct (memcmp_chunks_total m buffer (xorshift2MBPattern seed)
              (size / CHUNK) Hwf (proj2 Hc) fuel 0 buffer stale)
    as [(a & off & Hrun) | (dev' & Hrun & Hok)].
  - lia.
  - rewrite Z.sub_0_r. assumption.
  - rewrite Hrun. eauto.
  - rewrite Hrun. rewrite Z.sub_0_r in *.
    set (full := size / CHUNK * CHUNK) in *.
    set (rem := size mod CHUNK) in *.
    (* the mismatch lies in the final partial chunk *)
    assert (Hlate : full <= o).
    { destruct (Z_lt_le_dec o full) as [Hin|]; [|assumption].
      exfalso. apply Hbad. rewrite Hok by lia.
      unfold expected_byte. reflexivity. }
    destruct (rem =? 0) eqn:Hz; [apply Z.eqb_eq in Hz; lia|]. cbn [negb].
    set (dev2 := cuMemcpy dev' 0 m (buffer + full) rem).
    assert (Hdev2 : forall k, 0 <= k < rem -> dev2 k = m (buffer + full + k))
      by (intros k Hk; subst dev2; apply cuMemcpy_read; assumption).
    assert (Hlimit : WORD * Z.of_nat (Z.to_nat (rem / WORD)) = rem).
    { rewrite Z2Nat.id by (rewrite WORD_eq; divmod).
      rewrite WORD_eq in *. divmod. }
    assert (Hat : bytes_of_words (xorshift2MBPattern seed) (o - full)
                  <> dev2 (o - full)).
    { rewrite Hdev2 by lia.
      replace (buffer + full + (o - full)) with (buffer + o) by lia.
      intro E. apply Hbad. rewrite <- E. unfold expected_byte. f_equal.
      apply Z.mod_unique with (q := size / CHUNK);
        subst full rem; lia. }
    destruct (memcmp_ne (bytes_of_words (xorshift2MBPattern seed)) dev2 rem)
      eqn:Hne.
    + destruct (first_bad_word (Z.to_nat (rem / WORD)) 0 dev2
                               (xorshift2MBPattern seed)) as [x|] eqn:Hscan;
        [eauto|].
      exfalso. apply Hat.
      apply (word_loop_covers_words (Z.to_nat (rem / WORD))).
      * intros k Hk. rewrite Hlimit in Hk. rewrite Hdev2 by lia. apply Hwf.
      * assumption.
      * rewrite Hlimit. lia.
    + exfalso. apply Hat. rewrite memcmp_ne_false in Hne by lia.
      apply Hne. lia.
Qed.

Lemma mismatch_in_whole_words_aborts_witness :
  exists address offset,
    memcmpPattern 1 (fun _ => 0) (fun _ => 0) 4096 8 3131961357
    = Some (Aborted address offset).
Proof.
  apply (mismatch_in_whole_words_aborts 1 (fun _ => 0) (fun _ => 0) 4096 8
                                        3131961357 0).
  - intro a. lia.
  - vm_compute. split; [discriminate | reflexivity].
  - reflexivity.
  - vm_compute. lia.
  - lia.
  - lazy. discriminate.
Defined.



(** C1, at the failing input. A check over 5 bytes of a buffer whose byte
    at offset 4 differs from the pattern passes: [memcmp] reports the
    difference, the word loop runs over [5 / 4 = 1] word only, finds it
    equal, and the function returns. Over 8 bytes the same byte makes the
    check abort at offset 4. *)
Theorem trailing_byte_mismatch_passes :
  wf_memory trailing_byte_corrupted
  /\ trailing_byte_corrupted 4 <> expected_byte 3131961357 4
  /\ memcmp_ne (bytes_of_words (xorshift2MBPattern 3131961357))
               (cuMemcpy (fun _ => 0) 0 trailing_byte_corrupted 0 5) 5 = true
  /\ memcmpPattern 1 (fun _ => 0) trailing_byte_corrupted 0 5 3131961357
     = Some Passed
  /\ memcmpPattern 1 (fun _ => 0) trailing_byte_corrupted 0 8 3131961357
     = Some (Aborted 4 4).
Proof.
  split; [|split; [|split; [|split]]].
  - intro a. unfold trailing_byte_corrupted.
    destruct (a =? 4).
    + lazy. split; [discriminate | reflexivity].
    + unfold expected_byte, bytes_of_words. apply word_byte_range.
  - lazy. discriminate.
  - lazy. reflexivity.
  - lazy. reflexivity.
  - lazy. reflexivity.
Qed.

(** ** Copy sizes *)

Lemma threshold_eq : defaultBufferSize * _MiB = 67108864.
Proof. reflexivity. Qed.

Lemma totalThreadCount_range numThreadPerBlock numSm :
  0 <= totalThreadCount numThreadPerBlock numSm < 2 ^ 32.
Proof. apply wrap32_range. Qed.

(** The element count of a buffer under the threshold fits an [int]. *)
Lemma small_numUint4 size :
  0 <= size < defaultBufferSize * _MiB ->
  to_int32 (size / sizeof_uint4) = size / 16
  /\ 0 <= size / 16 < 2 ^ 22.
Proof.
  rewrite threshold_eq. intro Hs. unfold to_int32, sizeof_uint4.
  assert (Hq : 0 <= size / 16 < 2 ^ 22) by divmod.
  rewrite wrap32_small by lia.
  destruct (size / 16 <? 2 ^ 31) eqn:E; [split; [reflexivity|assumption]|].
  apply Z.ltb_ge in E. lia.
Qed.

(** The value of the large branch, shared by [getAdjustedCopySize] and
    [copyKernel]. *)
Lemma large_truncation size T :
  u64 size -> 0 < T < 2 ^ 32 ->
  wrap64 (wrap64 (T * (size / sizeof_uint4 / T)) * sizeof_uint4)
  = 16 * T * (size / (16 * T))
  /\ 0 <= 16 * T * (size / (16 * T)) <= size.
Proof.
  intros [Hlo Hhi] HT. unfold sizeof_uint4.
  rewrite Z.div_div by lia.
  pose proof (Z.div_mod size (16 * T) ltac:(lia)) as Hdm.
  pose proof (Z.mod_pos_bound size (16 * T) ltac:(lia)) as Hr.
  assert (Hq : 0 <= size / (16 * T)) by (apply Z.div_pos; lia).
  assert (Hb : 0 <= 16 * T * (size / (16 * T)) <= size) by lia.
  assert (Hb' : 0 <= T * (size / (16 * T)) < 2 ^ 64) by nia.
  rewrite (wrap64_small (T * (size / (16 * T)))) by assumption.
  rewrite wrap64_small by lia.
  split; [ring | assumption].
Qed.

(** C5. For every requested size and every device with a positive thread
    count, [MemcpyOperationSM::getAdjustedCopySize] returns a value that is
    at most the requested size and a multiple of 16; for a size of at least
    [defaultBufferSize] MiB the value is the requested size exactly when
    that size is a multiple of [16 * totalThreadCount]. *)
Theorem SM_adjusted_size_bounds numThreadPerBlock size numSm :
  u64 size ->
  0 < totalThreadCount numThreadPerBlock numSm ->
  exists r,
    getAdjustedCopySizeSM numThreadPerBlock size numSm = Some r
    /\ 0 <= r <= size
    /\ r mod sizeof_uint4 = 0
    /\ (defaultBufferSize * _MiB <= size ->
        (r = size
         <-> size mod (sizeof_uint4
                       * totalThreadCount numThreadPerBlock numSm) = 0)).
Proof.
  intros Hsize HT. unfold getAdjustedCopySizeSM.
  pose proof (totalThreadCount_range numThreadPerBlock numSm) as HTr.
  set (T := totalThreadCount numThreadPerBlock numSm) in *.
  destruct (size <? defaultBufferSize * _MiB) eqn:Hsmall.
  - apply Z.ltb_lt in Hsmall.
    destruct (small_numUint4 size) as [-> Hq]; [unfold u64 in Hsize; lia|].
    unfold sizeof_uint4.
    assert (Hr : 0 <= size / 16 * 16 <= size)
      by divmod.
    rewrite wrap64_small by (unfold u64 in Hsize; lia).
    eexists. split; [reflexivity|]. split; [assumption|].
    split; [apply Z.mod_mul; lia | intro; lia].
  - apply Z.ltb_ge in Hsmall.
    destruct (T =? 0) eqn:HT0; [apply Z.eqb_eq in HT0; lia|].
    destruct (large_truncation size T Hsize ltac:(lia)) as [-> Hb].
    eexists. split; [reflexivity|]. split; [assumption|]. split.
    + unfold sizeof_uint4.
      replace (16 * T * (size / (16 * T)))
        with (T * (size / (16 * T)) * 16) by ring.
      apply Z.mod_mul. lia.
    + intros _. unfold sizeof_uint4.
      pose proof (Z.div_mod size (16 * T) ltac:(lia)) as Hdm.
      pose proof (Z.mod_pos_bound size (16 * T) ltac:(lia)) as Hr.
      split; intro H; lia.
Qed.

Lemma SM_adjusted_size_bounds_witness :
  exists r,
    getAdjustedCopySizeSM 512 (64 * _MiB + 4096) 108 = Some r
    /\ 0 <= r <= 64 * _MiB + 4096
    /\ r mod sizeof_uint4 = 0
    /\ (defaultBufferSize * _MiB <= 64 * _MiB + 4096 ->
        (r = 64 * _MiB + 4096
         <-> (64 * _MiB + 4096)
             mod (sizeof_uint4 * totalThreadCount 512 108) = 0)).
Proof.
  apply (SM_adjusted_size_bounds 512 (64 * _MiB + 4096) 108).
  - vm_compute. split; [discriminate | reflexivity].
  - vm_compute. reflexivity.
Defined.

(** With a positive thread count the size computation divides by no zero. *)
Lemma getAdjustedCopySizeSM_returns numThreadPerBlock size numSm :
  0 < totalThreadCount numThreadPerBlock numSm ->
  exists r, getAdjustedCopySizeSM numThreadPerBlock size numSm = Some r.
Proof.
  intro HT. unfold getAdjustedCopySizeSM.
  destruct (size <? defaultBufferSize * _MiB); [eauto|].
  destruct (totalThreadCount numThreadPerBlock numSm =? 0) eqn:HT0;
    [apply Z.eqb_eq in HT0; lia | eauto].
Qed.

(** [copyKernel] returns what [getAdjustedCopySize] computes, whenever it
    launches: for the same size on the same device the two agree. *)
Lemma copyKernel_returns_adjusted numThreadPerBlock size numSm :
  u64 size -> sizeof_uint4 <= size ->
  0 < totalThreadCount numThreadPerBlock numSm ->
  option_map returned (copyKernel numThreadPerBlock size numSm)
  = getAdjustedCopySizeSM numThreadPerBlock size numSm.
Proof.
  intros Hsize H16 HT. unfold copyKernel, getAdjustedCopySizeSM.
  destruct (size <? defaultBufferSize * _MiB) eqn:Hsmall.
  - apply Z.ltb_lt in Hsmall.
    destruct (small_numUint4 size) as [-> Hq]; [unfold u64 in Hsize; lia|].
    assert (1 <= size / 16)
      by (unfold sizeof_uint4 in H16; divmod).
    assert (Hblock : wrap32 (Z.min (size / 16) 1024) <> 0)
      by (rewrite wrap32_small; lia).
    apply Z.eqb_neq in Hblock. rewrite Hblock. reflexivity.
  - destruct (totalThreadCount numThreadPerBlock numSm =? 0) eqn:HT0;
      [apply Z.eqb_eq in HT0; lia | reflexivity].
Qed.

(** X27. The precomputed size and the size the timed copy returns agree for
    a pair whose source has the capacity of the first pair's source. *)
Theorem sizes_agree_for_equal_capacities
    numThreadPerBlock mech pairs i p p0 :
  nth_error pairs i = Some p ->
  nth_error pairs 0 = Some p0 ->
  bufferSize (srcNode p) = bufferSize (srcNode p0) ->
  bufferSize (srcNode p) = bufferSize (dstNode p) ->
  u64 (bufferSize (srcNode p)) ->
  sizeof_uint4 <= bufferSize (srcNode p) ->
  0 < totalThreadCount numThreadPerBlock (numSm p) ->
  exists r,
    finalCopySize numThreadPerBlock mech pairs i = Some r
    /\ adjustedCopySizes numThreadPerBlock mech pairs i = Some r.
Proof.
  intros Hp Hp0 H0 Hdst Hsize H16 HT.
  unfold finalCopySize, adjustedCopySizes. rewrite Hp, Hp0, <- H0, <- Hdst.
  rewrite Z.eqb_refl. destruct mech; cbn [getAdjustedCopySize memcpyFunc].
  - eauto.
  - rewrite copyKernel_returns_adjusted by assumption.
    destruct (getAdjustedCopySizeSM_returns numThreadPerBlock
                (bufferSize (srcNode p)) (numSm p) HT) as (r & ->).
    eauto.
Qed.



Lemma sizes_agree_for_equal_capacities_witness :
  exists r,
    finalCopySize 512 SM uneven_pairs 0 = Some r
    /\ adjustedCopySizes 512 SM uneven_pairs 0 = Some r.
Proof.
  refine (sizes_agree_for_equal_capacities 512 SM uneven_pairs 0
            _ _ eq_refl eq_refl eq_refl eq_refl _ _ _).
  - vm_compute. split; [discriminate | reflexivity].
  - vm_compute. discriminate.
  - vm_compute. reflexivity.
Defined.

(** C2, at the failing input. Each pair satisfies the assertion of
    [doMemcpy] (source and destination of equal size), yet for pair 1 the
    size computed before the trials is that of pair 0's source, 64 MiB,
    while the timed copy moves and returns 128 MiB, with either copy
    mechanism. *)
Theorem precomputed_size_reads_first_pair :
  finalCopySize 512 CE uneven_pairs 1 = Some (64 * _MiB)
  /\ adjustedCopySizes 512 CE uneven_pairs 1 = Some (128 * _MiB)
  /\ finalCopySize 512 SM uneven_pairs 1 = Some 66355200
  /\ adjustedCopySizes 512 SM uneven_pairs 1 = Some 133595136.
Proof. repeat split; vm_compute; reflexivity. Qed.

(** ** The orchestrator: what is printed and what is returned *)



(** C6, at the failing input. In [PER_PAIR] mode with two pairs the output
    of a trial holds a sample line for pair 1 as well as for pair 0,
    whatever the statistic. *)
Theorem per_pair_mode_prints_every_pair :
  forall returnAppropriateMetric,
    option_map fst
      (doMemcpy 512 returnAppropriateMetric CE PER_PAIR 16
                two_pairs one_trial)
    = Some [ SampleLine 0 "Device 0" "Device 1" 536870912000;
             SampleLine 0 "Device 1" "Device 0" 357913941333 ].
Proof. intro metric. vm_compute. reflexivity. Qed.

(** Adding to a zero sum: [0.0 + x] is [x] for every double but [-0.0]. *)
Lemma float_add_zero_l x : x <> neg_zero -> (0 + x)%float = x.
Proof.
  intro Hx. apply Prim2SF_inj. rewrite add_spec.
  change (Prim2SF 0) with (S754_zero false).
  destruct (Prim2SF x) as [s | s | | s mx ex] eqn:E; try reflexivity.
  destruct s; [|reflexivity].
  exfalso. apply Hx. apply Prim2SF_inj. rewrite E. reflexivity.
Qed.

Section SinglePair.

Variable numThreadPerBlock : Z.
Variable returnAppropriateMetric : list float -> float.
Variable mech : mechanism.
Variable loopCount : Z.
Variable p : Pair.

Hypothesis p_size : u64 (bufferSize (srcNode p)).


Lemma copied_u64 size :
  adjustedCopySizes numThreadPerBlock mech [p] 0 = Some size ->
  wrap64 (0 + size) = size.
Proof.
  unfold adjustedCopySizes. cbn [nth_error].
  destruct (bufferSize (srcNode p) =? bufferSize (dstNode p)); [|discriminate].
  destruct mech; cbn [memcpyFunc].
  - intro H. injection H as <-. rewrite Z.add_0_l. apply wrap64_small.
    exact p_size.
  - unfold copyKernel.
    destruct (_ <? _); [destruct (_ =? 0) | destruct (_ =? 0)];
      cbn [option_map returned]; try discriminate;
      intro H; injection H as <-; rewrite Z.add_0_l;
      unfold wrap64; apply Z.mod_mod; lia.
Qed.

(** One trial of a single pair, in any mode. *)
Lemma trial_single bandwidthValue n m st s :
  bandwidthStats st = [s] ->
  timeWithEvents m = [totalTime m] ->
  match single_sample numThreadPerBlock mech loopCount p m with
  | Some d =>
      exists out,
        trial numThreadPerBlock mech bandwidthValue loopCount n [p] m st
        = Some {| bandwidthStats := [s ++ [d]];
                  totalBandwidth :=
                    if BandwidthValue_eqb bandwidthValue TOTAL_BW
                    then totalBandwidth st ++ [d]
                    else totalBandwidth st;
                  output := out |}
  | None =>
      trial numThreadPerBlock mech bandwidthValue loopCount n [p] m st = None
  end.
Proof.
  intros Hst Hm. unfold single_sample, trial.
  cbn [List.length sample_pairs total_size nth_error].
  rewrite Hm. cbn [nth_error].
  destruct (adjustedCopySizes numThreadPerBlock mech [p] 0) as [size|]
    eqn:Hsize; [|reflexivity].
  destruct (bandwidth_of size loopCount (totalTime m)) as [bw|] eqn:Hbw;
    cbn [option_map]; [|reflexivity].
  cbn [bandwidthStats totalBandwidth output]. rewrite Hst. cbn [feed].
  destruct (BandwidthValue_eqb bandwidthValue TOTAL_BW).
  - rewrite (copied_u64 size Hsize), Hbw. eauto.
  - eauto.
Qed.

(** The trials of a single pair, in any mode. *)
Lemma trials_single bandwidthValue ms :
  (forall m, In m ms -> timeWithEvents m = [totalTime m]) ->
  forall n st s,
    bandwidthStats st = [s] ->
    match single_samples numThreadPerBlock mech loopCount p ms with
    | Some l =>
        exists out,
          trials numThreadPerBlock mech bandwidthValue loopCount n [p] ms st
          = Some {| bandwidthStats := [s ++ l];
                    totalBandwidth :=
                      if BandwidthValue_eqb bandwidthValue TOTAL_BW
                      then totalBandwidth st ++ l
                      else totalBandwidth st;
                    output := out |}
    | None =>
        trials numThreadPerBlock mech bandwidthValue loopCount n [p] ms st
        = None
    end.
Proof.
  induction ms as [|m ms IH]; intros Hms n st s Hst;
    cbn [single_samples trials].
  - exists (output st). rewrite app_nil_r.
    destruct (BandwidthValue_eqb bandwidthValue TOTAL_BW);
      rewrite ?app_nil_r; destruct st; cbn in *; congruence.
  - pose proof (trial_single bandwidthValue n m st s Hst
                             (Hms m (or_introl eq_refl))) as Ht.
    destruct (single_sample numThreadPerBlock mech loopCount p m) as [d|];
      [|rewrite Ht; reflexivity].
    destruct Ht as (out & ->).
    specialize (IH (fun m' H => Hms m' (or_intror H)) (n + 1)
                   {| bandwidthStats := [s ++ [d]];
                      totalBandwidth :=
                        if BandwidthValue_eqb bandwidthValue TOTAL_BW
                        then totalBandwidth st ++ [d]
                        else totalBandwidth st;
                      output := out |}
                   (s ++ [d]) eq_refl).
    destruct (single_samples numThreadPerBlock mech loopCount p ms) as [l|]; [|assumption].
    destruct IH as (out' & ->). exists out'. cbn [totalBandwidth].
    rewrite <- !app_assoc. cbn [app].
    destruct (BandwidthValue_eqb bandwidthValue TOTAL_BW);
      rewrite <- ?app_assoc; reflexivity.
Qed.

(** What [doMemcpy] returns for a single pair, mode by mode. *)
Lemma doMemcpy_single bandwidthValue ms :
  (forall m, In m ms -> timeWithEvents m = [totalTime m]) ->
  option_map snd
    (doMemcpy numThreadPerBlock returnAppropriateMetric mech bandwidthValue
              loopCount [p] ms)
  = option_map
      (fun l =>
         match bandwidthValue with
         | SUM_BW => (0 + returnAppropriateMetric l * giga)%float
         | _ => (returnAppropriateMetric l * giga)%float
         end)
      (single_samples numThreadPerBlock mech loopCount p ms).
Proof.
  intro Hms. unfold doMemcpy. cbn [map].
  pose proof (trials_single bandwidthValue ms Hms 0
                {| bandwidthStats := [[]]; totalBandwidth := [];
                   output := [] |} [] eq_refl) as Ht.
  destruct (single_samples numThreadPerBlock mech loopCount p ms) as [l|]; [|rewrite Ht; reflexivity].
  destruct Ht as (out & ->). cbn [app totalBandwidth option_map].
  unfold reduce. destruct bandwidthValue; reflexivity.
Qed.

(** In [TOTAL_BW] mode the group statistic of a single pair holds the
    samples of pair 0's own statistic. *)
Lemma total_statistic_is_pair_statistic ms st :
  (forall m, In m ms -> timeWithEvents m = [totalTime m]) ->
  trials numThreadPerBlock mech TOTAL_BW loopCount 0 [p] ms
         {| bandwidthStats := [[]]; totalBandwidth := []; output := [] |}
  = Some st ->
  bandwidthStats st = [totalBandwidth st].
Proof.
  intros Hms Hrun.
  pose proof (trials_single TOTAL_BW ms Hms 0
                {| bandwidthStats := [[]]; totalBandwidth := [];
                   output := [] |} [] eq_refl) as Ht.
  destruct (single_samples numThreadPerBlock mech loopCount p ms) as [l|]; [|congruence].
  destruct Ht as (out & Ht). rewrite Ht in Hrun. injection Hrun as <-.
  reflexivity.
Qed.

End SinglePair.


(** C7. For a group of one pair whose trials measured the same span from
    pair 0's start to its end and from pair 0's start to [totalEnd],
    [doMemcpy] returns the same value in the three modes: the value [r] of
    the default mode is the value of [TOTAL_BW], whose group statistic holds
    the samples of pair 0's statistic, and the value of [SUM_BW], whose sum
    over the single pair is [0.0 + r]. (The one double for which [0.0 + r]
    is not [r] is [-0.0].) *)
Theorem single_pair_modes_agree
    numThreadPerBlock returnAppropriateMetric mech loopCount p ms r :
  u64 (bufferSize (srcNode p)) ->
  (forall m, In m ms -> timeWithEvents m = [totalTime m]) ->
  option_map snd
    (doMemcpy numThreadPerBlock returnAppropriateMetric mech PER_PAIR
              loopCount [p] ms) = Some r ->
  r <> neg_zero ->
  option_map snd
    (doMemcpy numThreadPerBlock returnAppropriateMetric mech TOTAL_BW
              loopCount [p] ms) = Some r
  /\ option_map snd
       (doMemcpy numThreadPerBlock returnAppropriateMetric mech SUM_BW
                 loopCount [p] ms) = Some r.
Proof.
  intros Hsize Hms Hdefault Hr.
  rewrite doMemcpy_single in Hdefault by assumption.
  rewrite !doMemcpy_single by assumption.
  destruct (single_samples numThreadPerBlock mech loopCount p ms) as [l|];
    cbn [option_map] in *; [|discriminate].
  injection Hdefault as <-. split; [reflexivity|].
  f_equal. apply float_add_zero_l. assumption.
Qed.


Lemma single_pair_modes_agree_witness :
  option_map snd (doMemcpy 512 mean SM TOTAL_BW 16 [one_pair] three_trials)
  = Some 0x1.96fa82e87d2c8p+8%float
  /\ option_map snd (doMemcpy 512 mean SM SUM_BW 16 [one_pair] three_trials)
     = Some 0x1.96fa82e87d2c8p+8%float.
Proof.
  apply (single_pair_modes_agree 512 mean SM 16 one_pair three_trials).
  - vm_compute. split; [discriminate | reflexivity].
  - intros m [<- | [<- | [<- | []]]]; reflexivity.
  - vm_compute. reflexivity.
  - intro H. apply (f_equal Prim2SF) in H. vm_compute in H. discriminate.
Defined.

(** ** The spin gate *)

(** With [timeoutMs = ~0] the product wraps to the negated clock rate. *)
Lemma timeoutClocks_of_disabled clocksPerMs :
  timeoutClocks_of clocksPerMs ones64 = wrap64 (- clocksPerMs).
Proof.
  unfold timeoutClocks_of, wrap64, ones64.
  rewrite Z.mul_mod_idemp_l by lia.
  replace (clocksPerMs * (2 ^ 64 - 1))
    with (- clocksPerMs + clocksPerMs * 2 ^ 64) by ring.
  apply Z.mod_add. lia.
Qed.

(** X26. The product [clocksPerMs * timeoutMs] that [spinKernel] passes on
    for [timeoutMs = ~0ULL] is the sentinel [~0ULL] for one clock rate
    only: 1 kHz. *)
Lemma timeoutClocks_of_disabled_is_sentinel clocksPerMs :
  - 2 ^ 31 <= clocksPerMs < 2 ^ 31 ->
  timeoutClocks_of clocksPerMs ones64 = ones64 <-> clocksPerMs = 1.
Proof.
  intro Hrange. rewrite timeoutClocks_of_disabled. unfold wrap64, ones64.
  split.
  - intro H. divmod.
  - intros ->. reflexivity.
Qed.

Lemma timeoutClocks_of_disabled_is_sentinel_witness :
  timeoutClocks_of 1000000 ones64 = ones64 <-> 1000000 = 1.
Proof.
  apply (timeoutClocks_of_disabled_is_sentinel 1000000). lia.
Defined.

(** The kernel itself honours the sentinel: launched with [~0ULL] it never
    leaves the loop through the timeout branch, and keeps spinning for as
    long as the latch reads 0. *)
Lemma spin_disabled_waits fuel d endTime :
  forall reads clocks,
    (forall k, (k < reads + fuel)%nat -> latch_at d k = 0) ->
    spin fuel d ones64 endTime reads clocks = None.
Proof.
  induction fuel as [|fuel IH]; intros reads clocks Hlatch; cbn [spin].
  - reflexivity.
  - rewrite Hlatch by lia. rewrite Z.eqb_refl. cbn [negb].
    apply IH. intros k Hk. apply Hlatch. lia.
Qed.

Lemma spinKernelDevice_disabled_waits fuel d :
  (forall k, (k < fuel)%nat -> latch_at d k = 0) ->
  spinKernelDevice fuel d ones64 = None.
Proof.
  intro Hlatch. unfold spinKernelDevice. apply spin_disabled_waits.
  intros k Hk. apply Hlatch. lia.
Qed.


(** C8, at the failing input. [spinKernel] called with [timeoutMs = ~0] on a
    device whose clock rate is 1000000 kHz computes [timeoutClocks =
    2^64 - 1000000], which is not the sentinel [~0ULL]; the end time wraps
    to a moment in the past and the kernel leaves the loop at its first
    test of the clock, the latch still 0. *)
Theorem disabled_timeout_times_out :
  timeoutClocks_of 1000000 ones64 = 2 ^ 64 - 1000000
  /\ timeoutClocks_of 1000000 ones64 <> ones64
  /\ (forall k, latch_at held_device k = 0)
  /\ spinKernel 1 held_device 1000000 ones64 = Some TimedOut.
Proof.
  split; [|split; [|split]].
  - vm_compute. reflexivity.
  - vm_compute. discriminate.
  - intro k. reflexivity.
  - vm_compute. reflexivity.
Qed.

(** ** The scenario driver *)

Lemma strtol_range s : LONG_MIN <= fst (strtol s) <= LONG_MAX.
Proof.
  unfold strtol.
  destruct (match skip_spaces s with
            | String "-" s' => (true, s')
            | String "+" s' => (false, s')
            | _ => (false, skip_spaces s)
            end) as [negative s'].
  destruct s' as [|c s'']; cbn [fst]; [unfold LONG_MIN, LONG_MAX; lia|].
  destruct (digit_of c); cbn [fst]; [|unfold LONG_MIN, LONG_MAX; lia].
  destruct (digits 0 (String c s'')) as [v p]. cbn [fst].
  unfold LONG_MIN, LONG_MAX. lia.
Qed.

Lemma find_no_key (testcases : list Testcase) id :
  (forall t, In t testcases -> testKey t <> id) ->
  find (fun test => String.eqb (testKey test) id) testcases = None.
Proof.
  induction testcases as [|t ts IH]; intro Hnone; cbn [find]; [reflexivity|].
  destruct (String.eqb (testKey t) id) eqn:E.
  - apply String.eqb_eq in E. exfalso. apply (Hnone t); [left; reflexivity|].
    assumption.
  - apply IH. intros t' Ht'. apply Hnone. right. assumption.
Qed.


(** C9. For every identifier that resolves to no scenario, [findTestcase]
    throws a string, [runTestcase] catches it, prints one line starting
    with ERROR and returns; the loop of [main] then goes on with the
    identifiers that follow, and ends as it would have without this one. *)
Theorem unresolved_testcase_is_skipped testcases id rest :
  resolves_to_none testcases id ->
  exists s,
    findTestcase testcases id = inl (StringError s)
    /\ runTestcase testcases id
       = ([Print ("ERROR: " ++ s ++ endl)%string], Returns)
    /\ runTestcases testcases (id :: rest)
       = (Print ("ERROR: " ++ s ++ endl)%string
            :: fst (runTestcases testcases rest),
          snd (runTestcases testcases rest)).
Proof.
  intro Hnone.
  assert (Hfind : exists s, findTestcase testcases id = inl (StringError s)).
  { unfold resolves_to_none in Hnone. unfold findTestcase.
    pose proof (strtol_range (c_str id)) as Hrange.
    destruct (strtol (c_str id)) as [index p]. cbn [fst snd] in *.
    destruct p as [|c p'].
    - assert (Hidx : wrap64 index = index).
      { apply wrap64_small. unfold LONG_MAX in Hrange. lia. }
      rewrite Hidx.
      destruct (Z.of_nat (List.length testcases) <=? index) eqn:E;
        [eauto|]. apply Z.leb_gt in E. lia.
    - rewrite find_no_key by assumption. eauto. }
  destruct Hfind as (s & Hfind). exists s.
  assert (Hrun : runTestcase testcases id
                 = ([Print ("ERROR: " ++ s ++ endl)%string], Returns))
    by (unfold runTestcase; rewrite Hfind; reflexivity).
  split; [assumption|]. split; [assumption|].
  cbn [runTestcases]. rewrite Hrun.
  destruct (runTestcases testcases rest) as [out' e]. reflexivity.
Qed.


Lemma unresolved_testcase_is_skipped_witness :
  exists s,
    findTestcase two_testcases "7" = inl (StringError s)
    /\ runTestcase two_testcases "7"
       = ([Print ("ERROR: " ++ s ++ endl)%string], Returns)
    /\ runTestcases two_testcases ["7"; "1"]%string
       = (Print ("ERROR: " ++ s ++ endl)%string
            :: fst (runTestcases two_testcases ["1"%string]),
          snd (runTestcases two_testcases ["1"%string])).
Proof.
  apply (unresolved_testcase_is_skipped two_testcases "7" ["1"%string]).
  vm_compute. discriminate.
Defined.

(** ** The scenario driver: identifiers, lookups and the loop of [main] *)

(** *** Decimal identifiers *)

Lemma digits_string_of_uint d :
  forall acc,
    digits (Z.of_nat acc) (NilEmpty.string_of_uint d)
    = (Z.of_nat (Nat.of_uint_acc d acc), EmptyString).
Proof.
  induction d as [|d IH|d IH|d IH|d IH|d IH|d IH|d IH|d IH|d IH|d IH];
    intro acc; cbn [NilEmpty.string_of_uint digits Nat.of_uint_acc];
    [reflexivity | ..];
    match goal with
    | |- context [digit_of ?c] =>
        let v := eval vm_compute in (digit_of c) in
        change (digit_of c) with v
    end;
    cbv iota; rewrite <- IH; f_equal;
    rewrite Nat.tail_mul_spec; lia.
Qed.

Lemma to_uint_not_nil n : Nat.to_uint n <> Decimal.Nil.
Proof.
  intro H. pose proof (Unsigned.of_to n) as Hn. rewrite H in Hn.
  cbn in Hn. subst n. discriminate H.
Qed.

(** The first character of a decimal rendering is a digit. *)
Lemma string_of_uint_first d :
  d <> Decimal.Nil ->
  exists c s',
    NilEmpty.string_of_uint d = String c s'
    /\ (exists v, digit_of c = Some v)
    /\ isspace c = false
    /\ c <> "-"%char /\ c <> "+"%char.
Proof.
  intro Hd. destruct d; [contradiction | ..];
    cbn [NilEmpty.string_of_uint]; do 2 eexists;
    (split; [reflexivity|]);
    (split; [eexists; vm_compute; reflexivity|]);
    (split; [vm_compute; reflexivity|]); split; discriminate.
Qed.

Lemma c_str_string_of_uint d :
  c_str (NilEmpty.string_of_uint d) = NilEmpty.string_of_uint d.
Proof.
  induction d; cbn [NilEmpty.string_of_uint c_str]; [reflexivity | ..];
    match goal with
    | |- context [Ascii.eqb ?c Ascii.zero] =>
        change (Ascii.eqb c Ascii.zero) with false
    end; cbv iota; rewrite IHd; reflexivity.
Qed.

Lemma c_str_to_string z : c_str (to_string z) = to_string z.
Proof.
  unfold to_string. destruct (z <? 0).
  - cbn [c_str]. change (Ascii.eqb "-" Ascii.zero) with false. cbv iota.
    rewrite c_str_string_of_uint. reflexivity.
  - apply c_str_string_of_uint.
Qed.

(** Parsing back a printed [long] gives the value and leaves nothing. *)
Lemma strtol_to_string z :
  LONG_MIN <= z <= LONG_MAX -> strtol (to_string z) = (z, EmptyString).
Proof.
  intro Hz. unfold to_string.
  destruct (z <? 0) eqn:Hneg; reflect_comparisons.
  - set (n := Z.to_nat (- z)).
    destruct (string_of_uint_first (Nat.to_uint n) (to_uint_not_nil n))
      as (c & s' & Hs & (v & Hv) & Hsp & Hm & Hp).
    unfold strtol. cbn [skip_spaces].
    change (isspace "-") with false. cbv iota.
    rewrite Hs, Hv, <- Hs.
    change 0 with (Z.of_nat 0). rewrite digits_string_of_uint.
    fold (Nat.of_uint (Nat.to_uint n)). rewrite Unsigned.of_to.
    subst n. rewrite Z2Nat.id by lia. f_equal.
    unfold LONG_MIN, LONG_MAX in *. lia.
  - set (n := Z.to_nat z).
    destruct (string_of_uint_first (Nat.to_uint n) (to_uint_not_nil n))
      as (c & s' & Hs & (v & Hv) & Hsp & Hm & Hp).
    unfold strtol. rewrite Hs. cbn [skip_spaces]. rewrite Hsp.
    assert (Hsign : match String c s' with
                    | String "-" r => (true, r)
                    | String "+" r => (false, r)
                    | _ => (false, String c s')
                    end = (false, String c s')).
    { destruct c as [[] [] [] [] [] [] [] []]; try reflexivity;
        exfalso; (apply Hm; reflexivity) || (apply Hp; reflexivity). }
    rewrite Hsign, Hv, <- Hs.
    change 0 with (Z.of_nat 0). rewrite digits_string_of_uint.
    fold (Nat.of_uint (Nat.to_uint n)). rewrite Unsigned.of_to.
    subst n. rewrite Z2Nat.id by lia. f_equal.
    unfold LONG_MIN, LONG_MAX in *. lia.
Qed.

(** *** Lookups *)


Lemma find_first_key (testcases : list Testcase) t :
  NoDup (map testKey testcases) ->
  In t testcases ->
  find (fun test => String.eqb (testKey test) (testKey t)) testcases = Some t.
Proof.
  induction testcases as [|t0 ts IH]; intros Hnd Hin; [contradiction|].
  cbn [find]. cbn [map] in Hnd. inversion Hnd as [|k ks Hnot Hnd']; subst.
  destruct Hin as [-> | Hin].
  - rewrite String.eqb_refl. reflexivity.
  - destruct (String.eqb (testKey t0) (testKey t)) eqn:E.
    + apply String.eqb_eq in E. exfalso. apply Hnot. rewrite E.
      apply in_map. assumption.
    + apply IH; assumption.
Qed.

Lemma findTestcase_by_key_of testcases t :
  NoDup (map testKey testcases) ->
  In t testcases ->
  is_name (testKey t) ->
  findTestcase testcases (testKey t) = inr t.
Proof.
  intros Hnd Hin Hname. unfold is_name in Hname. unfold findTestcase.
  destruct (strtol (c_str (testKey t))) as [index p]. cbn [snd] in Hname.
  destruct p as [|c p']; [contradiction|].
  rewrite find_first_key by assumption. reflexivity.
Qed.

(** X2. Looked up by its own key, a testcase is found - that one, not
    another - provided the keys are distinct and the key does not read as a
    number; a testcase that is not in the list is not found by its key. *)
Theorem findTestcase_by_key testcases t :
  NoDup (map testKey testcases) ->
  is_name (testKey t) ->
  (In t testcases -> findTestcase testcases (testKey t) = inr t)
  /\ ((forall t', In t' testcases -> testKey t' <> testKey t) ->
      findTestcase testcases (testKey t)
      = inl (StringError
               ("Testcase " ++ testKey t ++ " not found!")%string)).
Proof.
  intros Hnd Hname. split.
  - intro Hin. apply findTestcase_by_key_of; assumption.
  - intro Hnone. unfold is_name in Hname. unfold findTestcase.
    destruct (strtol (c_str (testKey t))) as [index p]. cbn [snd] in Hname.
    destruct p as [|c p']; [contradiction|].
    rewrite find_no_key by assumption. reflexivity.
Qed.

Lemma findTestcase_by_key_witness :
  findTestcase two_testcases "device_to_host_memcpy_ce"
  = inr {| testKey := "device_to_host_memcpy_ce"; filter := true;
           run := Completes |}.
Proof.
  apply (findTestcase_by_key two_testcases
           {| testKey := "device_to_host_memcpy_ce"; filter := true;
              run := Completes |}).
  - repeat constructor; cbn; intuition discriminate.
  - vm_compute. discriminate.
  - right. left. reflexivity.
Defined.

(** X3. Looked up by its index printed in decimal, the testcase at that
    index is found. *)
Theorem findTestcase_by_printed_index testcases i t :
  nth_error testcases i = Some t ->
  Z.of_nat i <= LONG_MAX ->
  findTestcase testcases (to_string (Z.of_nat i)) = inr t.
Proof.
  intros Hnth Hi. unfold findTestcase.
  rewrite c_str_to_string, strtol_to_string by (unfold LONG_MIN; lia).
  assert (Hlt : (i < List.length testcases)%nat)
    by (apply nth_error_Some; congruence).
  rewrite wrap64_small by (unfold LONG_MAX in Hi; lia).
  destruct (Z.of_nat (List.length testcases) <=? Z.of_nat i) eqn:E;
    reflect_comparisons; [lia|].
  rewrite Nat2Z.id, Hnth. reflexivity.
Qed.

Lemma findTestcase_by_printed_index_witness :
  findTestcase two_testcases (to_string (Z.of_nat 1))
  = inr {| testKey := "device_to_host_memcpy_ce"; filter := true;
           run := Completes |}.
Proof.
  apply (findTestcase_by_printed_index two_testcases 1).
  - reflexivity.
  - vm_compute. discriminate.
Defined.

(** X4. A printed index outside [0, size) - negative, or at least the
    number of testcases - makes [findTestcase] throw the out-of-bound
    string: the signed index is compared as an unsigned one. *)
Theorem findTestcase_index_out_of_bound testcases z :
  LONG_MIN <= z <= LONG_MAX ->
  Z.of_nat (List.length testcases) < 2 ^ 63 ->
  z < 0 \/ Z.of_nat (List.length testcases) <= z ->
  findTestcase testcases (to_string z)
  = inl (StringError
           ("Testcase index " ++ to_string z ++ " out of bound!")%string).
Proof.
  intros Hz Hlen Hout. unfold findTestcase.
  rewrite c_str_to_string, strtol_to_string by assumption.
  destruct (Z.of_nat (List.length testcases) <=? wrap64 z) eqn:E;
    [reflexivity|]. reflect_comparisons. exfalso.
  unfold LONG_MIN, LONG_MAX in Hz.
  destruct Hout as [Hneg | Hbig].
  - assert (wrap64 z = z + 2 ^ 64).
    { unfold wrap64. symmetry. apply Z.mod_unique with (q := -1); lia. }
    lia.
  - rewrite wrap64_small in E by lia. lia.
Qed.

Lemma findTestcase_index_out_of_bound_witness :
  findTestcase two_testcases (to_string (-1))
  = inl (StringError
           ("Testcase index " ++ to_string (-1) ++ " out of bound!")%string).
Proof.
  apply (findTestcase_index_out_of_bound two_testcases (-1)).
  - vm_compute. split; discriminate.
  - vm_compute. reflexivity.
  - left. lia.
Defined.

(** X5. An identifier that is empty as a C string is read as the number 0:
    it selects the first testcase, and is out of bound only when there is
    no testcase at all. *)
Theorem findTestcase_empty_id testcases id :
  c_str id = EmptyString ->
  findTestcase testcases id
  = match testcases with
    | t :: _ => inr t
    | [] => inl (StringError
                   ("Testcase index " ++ id ++ " out of bound!")%string)
    end.
Proof.
  intro Hid. unfold findTestcase. rewrite Hid.
  change (strtol EmptyString) with (0, EmptyString).
  destruct testcases as [|t ts]; reflexivity.
Qed.

Lemma findTestcase_empty_id_witness :
  findTestcase two_testcases ""
  = match two_testcases with
    | t :: _ => inr t
    | [] => inl (StringError
                   ("Testcase index " ++ "" ++ " out of bound!")%string)
    end.
Proof.
  apply (findTestcase_empty_id two_testcases ""). reflexivity.
Defined.

(** *** The loop of [main] *)

Lemma runTestcase_found testcases id t :
  findTestcase testcases id = inr t ->
  runTestcase testcases id = execute t.
Proof. intro H. unfold runTestcase, execute. rewrite H. reflexivity. Qed.

Lemma runTestcases_by_key testcases :
  NoDup (map testKey testcases) ->
  forall tests,
    (forall t, In t tests -> In t testcases /\ is_name (testKey t)) ->
    runTestcases testcases (map testKey tests) = execute_all tests.
Proof.
  intros Hnd tests. induction tests as [|t rest IH]; intro Hall;
    cbn [map runTestcases execute_all]; [reflexivity|].
  destruct (Hall t (or_introl eq_refl)) as [Hin Hname].
  rewrite (runTestcase_found testcases (testKey t) t)
    by (apply findTestcase_by_key_of; assumption).
  rewrite IH by (intros t' Ht'; apply Hall; right; assumption).
  reflexivity.
Qed.

(** X6. Without a requested testcase, [main] runs each testcase itself once,
    in the order of the list, until one ends the process: looking every
    testcase up by its own key finds it, when the keys are distinct and
    none reads as a number. *)
Theorem run_requested_none_runs_all testcases :
  NoDup (map testKey testcases) ->
  (forall t, In t testcases -> is_name (testKey t)) ->
  run_requested testcases [] = execute_all testcases.
Proof.
  intros Hnd Hnames. unfold run_requested.
  apply runTestcases_by_key; [assumption|].
  intros t Ht. split; [assumption | apply Hnames; assumption].
Qed.

Lemma run_requested_none_runs_all_witness :
  run_requested two_testcases [] = execute_all two_testcases.
Proof.
  apply (run_requested_none_runs_all two_testcases).
  - repeat constructor; cbn; intuition discriminate.
  - intros t [<- | [<- | []]]; vm_compute; discriminate.
Defined.

(** ** More on the pattern, the fill and the check *)

Lemma nth_xorshift_loop count :
  forall seed k,
    (k < count)%nat ->
    nth k (xorshift_loop count seed) 0 = Nat.iter (S k) xorshift seed.
Proof.
  induction count as [|count IH]; intros seed k Hk; [lia|].
  cbn [xorshift_loop]. destruct k as [|k]; [reflexivity|].
  cbn [nth]. rewrite IH by lia. rewrite (Nat.iter_succ_r (S k)). reflexivity.
Qed.

Lemma iter_xorshift_u32 k seed : u32 seed -> u32 (Nat.iter k xorshift seed).
Proof.
  intro Hs. induction k as [|k IH]; [assumption|].
  cbn [Nat.iter]. apply xorshift_u32. assumption.
Qed.

Lemma xorshift_zero_iff v : u32 v -> xorshift v = 0 <-> v = 0.
Proof.
  intro Hv. split.
  - intro H. apply xorshift_inj; [assumption | unfold u32; lia |].
    rewrite H. reflexivity.
  - intros ->. reflexivity.
Qed.

(** X7. The seed 0 is the generator's fixed point: every word of the
    pattern of seed 0 is 0, and for any other 32-bit seed no word of the
    pattern is 0. *)
Theorem pattern_word_zero_iff seed k :
  u32 seed ->
  Z.of_nat k < CHUNK / WORD ->
  nth k (xorshift2MBPattern seed) 0 = 0 <-> seed = 0.
Proof.
  intros Hs Hk. unfold xorshift2MBPattern.
  rewrite nth_xorshift_loop by (rewrite words_per_chunk in *; lia).
  clear Hk. induction k as [|k IH].
  - cbn [Nat.iter]. apply xorshift_zero_iff. assumption.
  - rewrite <- IH. change (Nat.iter (S (S k)) xorshift seed)
      with (xorshift (Nat.iter (S k) xorshift seed)).
    apply xorshift_zero_iff. apply iter_xorshift_u32. assumption.
Qed.

Lemma pattern_word_zero_iff_witness :
  nth 7 (xorshift2MBPattern 3405691582) 0 = 0 <-> 3405691582 = 0.
Proof.
  apply (pattern_word_zero_iff 3405691582 7).
  - vm_compute. split; [discriminate | reflexivity].
  - vm_compute. reflexivity.
Defined.

(** X8. [memsetPattern] writes inside the buffer only: it returns, and every
    byte outside [buffer, buffer + size) is what it was. *)
Theorem fill_changes_only_the_buffer fuel m buffer size seed :
  0 <= size < 2 ^ 53 ->
  (Z.to_nat (size / CHUNK) < fuel)%nat ->
  exists m',
    memsetPattern fuel m buffer size seed = Some m'
    /\ forall a, ~ (buffer <= a < buffer + size) -> m' a = m a.
Proof.
  intros Hsize Hfuel.
  destruct (memsetPattern_spec fuel m buffer size seed Hsize Hfuel)
    as (m' & Hfill & _ & Hout).
  exists m'. split; assumption.
Qed.

Lemma fill_changes_only_the_buffer_witness :
  exists m',
    memsetPattern 2 (fun _ => 7) 4096 (CHUNK + 5) 3405691582 = Some m'
    /\ forall a, ~ (4096 <= a < 4096 + (CHUNK + 5)) -> m' a = 7.
Proof.
  apply (fill_changes_only_the_buffer 2 (fun _ => 7) 4096 (CHUNK + 5)
                                      3405691582).
  - vm_compute. split; [discriminate | reflexivity].
  - vm_compute. lia.
Defined.

(** X9. Beyond the reach of its 32-bit chunk counter - from 2^53 bytes on -
    [memsetPattern] does not return: the counter wraps round before it
    reaches the chunk count. *)
Theorem fill_of_huge_size_does_not_return fuel m buffer size seed :
  2 ^ 53 <= size ->
  memsetPattern fuel m buffer size seed = None.
Proof.
  intro Hsize. unfold memsetPattern.
  rewrite memset_chunks_counter_wraps; [reflexivity | | lia].
  rewrite CHUNK_eq. divmod.
Qed.

Lemma fill_of_huge_size_does_not_return_witness :
  memsetPattern 1000 (fun _ => 0) 0 (2 ^ 53) 3405691582 = None.
Proof.
  apply (fill_of_huge_size_does_not_return 1000 (fun _ => 0) 0 (2 ^ 53)
                                           3405691582).
  vm_compute. discriminate.
Defined.

(** *** What an abort reports *)

(** The words before the first reported one, byte by byte. *)
Lemma bytes_before_first_bad_word limit dev pattern x :
  (forall k, 0 <= k < WORD * Z.of_nat limit -> 0 <= dev k < 256) ->
  first_bad_word limit 0 dev pattern = Some x ->
  0 <= x < Z.of_nat limit
  /\ load32 dev x <> nth (Z.to_nat x) pattern 0
  /\ forall k, 0 <= k < WORD * x -> dev k = bytes_of_words pattern k.
Proof.
  intros Hwf Hscan. apply first_bad_word_some in Hscan.
  destruct Hscan as (Hx & Hne & Hbefore).
  split; [lia|]. split; [assumption|].
  intros k Hk. rewrite WORD_eq in *.
  assert (Hk4 : k = WORD * (k / 4) + k mod 4 /\ 0 <= k mod 4 < 4
                /\ 0 <= k / 4 < x) by (rewrite WORD_eq; divmod).
  destruct Hk4 as (Hsplit & Hi & Hz).
  rewrite Hsplit. rewrite bytes_of_words_at by lia.
  apply bytes_of_load32; [| apply Hbefore; lia | assumption].
  intros i Hi'. apply Hwf. rewrite WORD_eq. lia.
Qed.

(** A word that differs from a 32-bit pattern word differs in a byte. *)
Lemma bad_word_has_bad_byte dev pattern x :
  Forall u32 pattern -> 0 <= x ->
  load32 dev x <> nth (Z.to_nat x) pattern 0 ->
  exists i, 0 <= i < WORD
            /\ dev (WORD * x + i) <> bytes_of_words pattern (WORD * x + i).
Proof.
  intros Hu Hx Hne.
  assert (Hdec : forall i, 0 <= i < 4 ->
            {dev (WORD * x + i) = bytes_of_words pattern (WORD * x + i)}
            + {dev (WORD * x + i) <> bytes_of_words pattern (WORD * x + i)})
    by (intros; apply Z.eq_dec).
  destruct (Hdec 0 ltac:(lia)) as [E0|N0]; [|exists 0; rewrite WORD_eq; split; [lia|assumption]].
  destruct (Hdec 1 ltac:(lia)) as [E1|N1]; [|exists 1; rewrite WORD_eq; split; [lia|assumption]].
  destruct (Hdec 2 ltac:(lia)) as [E2|N2]; [|exists 2; rewrite WORD_eq; split; [lia|assumption]].
  destruct (Hdec 3 ltac:(lia)) as [E3|N3]; [|exists 3; rewrite WORD_eq; split; [lia|assumption]].
  exfalso. apply Hne. apply load32_of_bytes; [apply nth_u32; assumption|].
  intros i Hi. rewrite <- bytes_of_words_at by lia.
  assert (Hcases : i = 0 \/ i = 1 \/ i = 2 \/ i = 3) by lia.
  destruct Hcases as [ -> | [ -> | [ -> | -> ] ] ]; assumption.
Qed.

Lemma memcmp_chunks_report m buffer pattern count :
  wf_memory m ->
  Forall u32 pattern ->
  count < 2 ^ 32 ->
  forall fuel n _buffer dev address offset,
    0 <= n <= count ->
    _buffer = buffer + n * CHUNK ->
    memcmp_chunks fuel m buffer pattern count n _buffer dev
    = Some (ChunkAbort address offset) ->
    n * CHUNK <= offset /\ offset + WORD <= count * CHUNK
    /\ offset mod WORD = 0
    /\ (exists i, 0 <= i < WORD
                  /\ m (buffer + (offset + i))
                     <> bytes_of_words pattern ((offset + i) mod CHUNK))
    /\ (forall o, n * CHUNK <= o < offset ->
                  m (buffer + o) = bytes_of_words pattern (o mod CHUNK))
    /\ address = buffer + offset + wrap32 (offset / CHUNK * CHUNK).
Proof.
  intros Hwf Hu Hcount.
  induction fuel as [|fuel IH];
    intros n _buffer dev address offset Hn Hbuf Hrun; [discriminate|].
  cbn [memcmp_chunks] in Hrun.
  destruct (n <? count) eqn:Hlt; [|discriminate]. reflect_comparisons.
  rewrite (wrap32_small (n + 1)) in Hrun by lia.
  set (dev1 := cuMemcpy dev 0 m _buffer CHUNK) in *.
  assert (Hdev1 : forall k, 0 <= k < CHUNK -> dev1 k = m (_buffer + k))
    by (intros k Hk; subst dev1; apply cuMemcpy_read; assumption).
  assert (Hwf1 : forall k,
             0 <= k < WORD * Z.of_nat (Z.to_nat (CHUNK / WORD)) ->
             0 <= dev1 k < 256).
  { intros k Hk. rewrite words_per_chunk_nat, WORD_eq in Hk.
    rewrite Hdev1 by (rewrite CHUNK_eq; lia). apply Hwf. }
  (* the rest of the loop, once this chunk is known to hold the pattern *)
  assert (Hnext : (forall k, 0 <= k < CHUNK ->
                     bytes_of_words pattern k = dev1 k) ->
            memcmp_chunks fuel m buffer pattern count (n + 1)
                          (_buffer + CHUNK) dev1
            = Some (ChunkAbort address offset) ->
            n * CHUNK <= offset /\ offset + WORD <= count * CHUNK
            /\ offset mod WORD = 0
            /\ (exists i, 0 <= i < WORD
                  /\ m (buffer + (offset + i))
                     <> bytes_of_words pattern ((offset + i) mod CHUNK))
            /\ (forall o, n * CHUNK <= o < offset ->
                  m (buffer + o) = bytes_of_words pattern (o mod CHUNK))
            /\ address = buffer + offset + wrap32 (offset / CHUNK * CHUNK)).
  { intros Hchunk Hrest.
    apply IH in Hrest; [| lia | subst _buffer; lia].
    destruct Hrest as (Hlo & Hhi & Hw & Hbad & Hbefore & Haddr).
    assert (0 < CHUNK) by (rewrite CHUNK_eq; lia).
    split; [lia|]. split; [assumption|]. split; [assumption|].
    split; [assumption|]. split; [|assumption].
    intros o Ho. destruct (Z_lt_le_dec o ((n + 1) * CHUNK)) as [Hhere|Hlater].
    - replace (buffer + o) with (_buffer + (o - n * CHUNK))
        by (subst _buffer; lia).
      rewrite <- Hdev1 by lia. rewrite <- Hchunk by lia. f_equal.
      apply Z.mod_unique with (q := n); lia.
    - apply Hbefore. lia. }
  destruct (memcmp_ne (bytes_of_words pattern) dev1 CHUNK) eqn:Hne.
  - destruct (first_bad_word (Z.to_nat (CHUNK / WORD)) 0 dev1 pattern)
      as [x|] eqn:Hscan.
    + injection Hrun as <- <-.
      destruct (bytes_before_first_bad_word _ _ _ _ Hwf1 Hscan)
        as (Hx & Hword & Hbefore).
      rewrite words_per_chunk_nat in Hx.
      destruct (bad_word_has_bad_byte dev1 pattern x Hu (proj1 Hx) Hword)
        as (i & Hi & Hbyte).
      assert (Hoff : wrap64 (_buffer - buffer + x * WORD)
                     = n * CHUNK + WORD * x).
      { subst _buffer. rewrite wrap64_small; [lia|].
        rewrite CHUNK_eq, WORD_eq. lia. }
      rewrite Hoff. rewrite CHUNK_eq, WORD_eq in *.
      assert (Hq : (n * 2097152 + 4 * x) / 2097152 = n) by divmod.
      split; [lia|]. split; [lia|]. split; [divmod|]. split; [|split].
      * exists i. split; [assumption|].
        replace (buffer + (n * 2097152 + 4 * x + i))
          with (_buffer + (4 * x + i)) by (subst _buffer; lia).
        rewrite <- Hdev1 by lia.
        replace ((n * 2097152 + 4 * x + i) mod 2097152) with (4 * x + i)
          by (apply Z.mod_unique with (q := n); lia).
        assumption.
      * intros o Ho.
        replace (buffer + o) with (_buffer + (o - n * 2097152))
          by (subst _buffer; lia).
        rewrite <- Hdev1 by lia. rewrite Hbefore by lia. f_equal.
        apply Z.mod_unique with (q := n); lia.
      * rewrite Hq. subst _buffer. lia.
    + exfalso.
      assert (Hall : memcmp_ne (bytes_of_words pattern) dev1 CHUNK = false).
      { apply memcmp_ne_false; [rewrite CHUNK_eq; lia|]. intros j Hj.
        apply (word_loop_covers_words (Z.to_nat (CHUNK / WORD)));
          [assumption | assumption |].
        rewrite words_per_chunk_nat, WORD_eq. rewrite CHUNK_eq in Hj. lia. }
      congruence.
  - apply Hnext; [|assumption].
    apply memcmp_ne_false; [rewrite CHUNK_eq; lia | assumption].
Qed.

Lemma trailing_byte_corrupted_wf : wf_memory trailing_byte_corrupted.
Proof.
  intro a. unfold trailing_byte_corrupted. destruct (a =? 4).
  - lazy. split; [discriminate | reflexivity].
  - unfold expected_byte, bytes_of_words. apply word_byte_range.
Qed.

(** X10. When [memcmpPattern] aborts, the offset it prints is that of the
    first word of the buffer that differs from the pattern: a whole word
    inside the checked size, a byte of which differs, every byte before it
    holding the pattern. Within the first 2 MiB the printed address is the
    address of that word. *)
Theorem abort_reports_first_bad_word
    fuel stale m buffer size seed address offset :
  wf_memory m ->
  u32 seed ->
  0 <= size < 2 ^ 53 ->
  (Z.to_nat (size / CHUNK) < fuel)%nat ->
  memcmpPattern fuel stale m buffer size seed
  = Some (Aborted address offset) ->
  0 <= offset /\ offset + WORD <= size /\ offset mod WORD = 0
  /\ (exists i, 0 <= i < WORD
                /\ m (buffer + (offset + i))
                   <> expected_byte seed (offset + i))
  /\ (forall o, 0 <= o < offset -> m (buffer + o) = expected_byte seed o)
  /\ (offset < CHUNK -> address = buffer + offset).
Proof.
  intros Hwf Hseed Hsize Hfuel Hrun.
  unfold memcmpPattern in Hrun.
  rewrite remaining_eq in Hrun by (unfold u64; lia).
  assert (Hu : Forall u32 (xorshift2MBPattern seed))
    by (apply xorshift_loop_u32; assumption).
  assert (Hdm : size = size / CHUNK * CHUNK + size mod CHUNK
                /\ 0 <= size mod CHUNK < CHUNK
                /\ 0 <= size / CHUNK * CHUNK
                /\ 0 <= size / CHUNK < 2 ^ 32
                /\ (size / CHUNK * CHUNK) mod WORD = 0)
    by (rewrite CHUNK_eq, WORD_eq in *; divmod).
  destruct Hdm as (Hdm & Hrem & Hfull & Hc & Hfullw).
  destruct (memcmp_chunks_total m buffer (xorshift2MBPattern seed)
              (size / CHUNK) Hwf (proj2 Hc) fuel 0 buffer stale)
    as [(a & off & Hchunks) | (dev' & Hchunks & Hok)].
  - lia.
  - rewrite Z.sub_0_r. assumption.
  - (* the abort comes from a whole chunk *)
    rewrite Hchunks in Hrun. injection Hrun as -> ->.
    apply memcmp_chunks_report in Hchunks;
      [| assumption | assumption | lia | lia | lia].
    destruct Hchunks as (Hlo & Hhi & Hw & Hbad & Hbefore & Haddr).
    split; [lia|]. split; [lia|]. split; [assumption|].
    split; [exact Hbad|]. split.
    + intros o Ho. apply Hbefore. lia.
    + intro Hfirst. rewrite Haddr.
      replace (offset / CHUNK) with 0 by (rewrite CHUNK_eq in *; divmod).
      rewrite Z.mul_0_l, wrap32_small by lia. lia.
  - (* the abort comes from the final partial chunk *)
    rewrite Hchunks in Hrun. rewrite Z.sub_0_r in *.
    set (full := size / CHUNK * CHUNK) in *.
    set (rem := size mod CHUNK) in *.
    destruct (rem =? 0); cbn [negb] in Hrun; [discriminate|].
    set (dev2 := cuMemcpy dev' 0 m (buffer + full) rem) in *.
    assert (Hdev2 : forall k, 0 <= k < rem -> dev2 k = m (buffer + full + k))
      by (intros k Hk; subst dev2; apply cuMemcpy_read; assumption).
    destruct (memcmp_ne _ dev2 rem); [|discriminate].
    destruct (first_bad_word (Z.to_nat (rem / WORD)) 0 dev2
                             (xorshift2MBPattern seed)) as [x|] eqn:Hscan;
      [|discriminate].
    injection Hrun as <- <-.
    assert (Hlimit : 0 <= Z.of_nat (Z.to_nat (rem / WORD))
                     /\ WORD * Z.of_nat (Z.to_nat (rem / WORD)) <= rem).
    { rewrite Z2Nat.id by (rewrite WORD_eq; divmod).
      rewrite WORD_eq. divmod. }
    assert (Hwf2 : forall k,
               0 <= k < WORD * Z.of_nat (Z.to_nat (rem / WORD)) ->
               0 <= dev2 k < 256)
      by (intros k Hk; rewrite Hdev2 by lia; apply Hwf).
    destruct (bytes_before_first_bad_word _ dev2 _ x Hwf2 Hscan)
      as (Hx & Hword & Hbefore).
    destruct (bad_word_has_bad_byte dev2 _ x Hu (proj1 Hx) Hword)
      as (i & Hi & Hbyte).
    assert (Hoff : wrap64 (buffer + full - buffer + x * WORD)
                   = full + WORD * x).
    { rewrite wrap64_small; [lia|]. rewrite CHUNK_eq, WORD_eq in *. lia. }
    rewrite Hoff. rewrite WORD_eq in *.
    assert (Hin : forall k, 0 <= k < rem ->
              (full + k) mod CHUNK = k)
      by (intros k Hk; symmetry;
          apply Z.mod_unique with (q := size / CHUNK); subst full; lia).
    split; [lia|]. split; [lia|]. split; [divmod|]. split; [|split].
    + exists i. split; [assumption|].
      replace (buffer + (full + 4 * x + i)) with (buffer + full + (4 * x + i))
        by lia.
      rewrite <- Hdev2 by lia. unfold expected_byte.
      replace (full + 4 * x + i) with (full + (4 * x + i)) by lia.
      rewrite Hin by lia. assumption.
    + intros o Ho. destruct (Z_lt_le_dec o full) as [Hwhole|Hlast].
      * rewrite Hok by lia. unfold expected_byte. reflexivity.
      * replace (buffer + o) with (buffer + full + (o - full)) by lia.
        rewrite <- Hdev2 by lia. rewrite Hbefore by lia.
        unfold expected_byte. f_equal.
        replace o with (full + (o - full)) at 2 by lia.
        rewrite Hin by lia. reflexivity.
    + intro Hfirst.
      assert (Hq : size / CHUNK = 0)
        by (subst full; rewrite CHUNK_eq in *; lia).
      assert (Hf0 : full = 0) by (subst full; rewrite Hq; lia).
      rewrite Hf0, wrap32_small by lia. lia.
Qed.

Lemma abort_reports_first_bad_word_witness :
  0 <= 4 /\ 4 + WORD <= 8 /\ 4 mod WORD = 0
  /\ (exists i, 0 <= i < WORD
                /\ trailing_byte_corrupted (0 + (4 + i))
                   <> expected_byte 3131961357 (4 + i))
  /\ (forall o, 0 <= o < 4 ->
        trailing_byte_corrupted (0 + o) = expected_byte 3131961357 o)
  /\ (4 < CHUNK -> 4 = 0 + 4).
Proof.
  apply (abort_reports_first_bad_word 1 (fun _ => 0) trailing_byte_corrupted
                                      0 8 3131961357 4 4).
  - exact trailing_byte_corrupted_wf.
  - vm_compute. split; [discriminate | reflexivity].
  - vm_compute. split; [discriminate | reflexivity].
  - vm_compute. lia.
  - lazy. reflexivity.
Defined.

(** ** More on copy sizes *)

(** The value of [getAdjustedCopySize], branch by branch. *)
Lemma getAdjustedCopySizeSM_value numThreadPerBlock size numSm :
  u64 size ->
  0 < totalThreadCount numThreadPerBlock numSm ->
  getAdjustedCopySizeSM numThreadPerBlock size numSm
  = Some (if size <? defaultBufferSize * _MiB
          then 16 * (size / 16)
          else 16 * totalThreadCount numThreadPerBlock numSm
               * (size / (16 * totalThreadCount numThreadPerBlock numSm))).
Proof.
  intros Hsize HT. unfold getAdjustedCopySizeSM.
  pose proof (totalThreadCount_range numThreadPerBlock numSm) as HTr.
  set (T := totalThreadCount numThreadPerBlock numSm) in *.
  destruct (size <? defaultBufferSize * _MiB) eqn:Hsmall; reflect_comparisons.
  - destruct (small_numUint4 size) as [-> Hq]; [unfold u64 in Hsize; lia|].
    unfold sizeof_uint4. rewrite wrap64_small; [f_equal; lia|].
    unfold u64 in Hsize. divmod.
  - destruct (T =? 0) eqn:HT0; reflect_comparisons; [lia|].
    destruct (large_truncation size T Hsize ltac:(lia)) as [-> _].
    reflexivity.
Qed.

(** X12. Adjusting an adjusted size changes nothing: the size
    [getAdjustedCopySize] returns is one it returns unchanged. *)
Theorem SM_adjusted_size_idempotent numThreadPerBlock size numSm :
  u64 size ->
  0 < totalThreadCount numThreadPerBlock numSm ->
  exists r,
    getAdjustedCopySizeSM numThreadPerBlock size numSm = Some r
    /\ getAdjustedCopySizeSM numThreadPerBlock r numSm = Some r.
Proof.
  intros Hsize HT.
  pose proof (totalThreadCount_range numThreadPerBlock numSm) as HTr.
  rewrite (getAdjustedCopySizeSM_value _ size) by assumption.
  set (T := totalThreadCount numThreadPerBlock numSm) in *.
  eexists. split; [reflexivity|].
  assert (Hr : exists r,
             (if size <? defaultBufferSize * _MiB
              then 16 * (size / 16) else 16 * T * (size / (16 * T))) = r
             /\ 0 <= r <= size
             /\ r = 16 * (r / 16)
             /\ (defaultBufferSize * _MiB <= size ->
                 r = 16 * T * (r / (16 * T)))).
  { eexists. split; [reflexivity|]. unfold u64 in Hsize.
    destruct (size <? defaultBufferSize * _MiB) eqn:E; reflect_comparisons.
    - split; [divmod|]. split; [divmod | lia].
    - pose proof (Z.div_mod size (16 * T) ltac:(lia)) as Hdm.
      pose proof (Z.mod_pos_bound size (16 * T) ltac:(lia)) as Hm.
      assert (Hq : 0 <= size / (16 * T)) by (apply Z.div_pos; lia).
      split; [nia|]. split.
      + replace (16 * T * (size / (16 * T)))
          with (T * (size / (16 * T)) * 16) by ring.
        rewrite Z.div_mul by lia. ring.
      + intros _. replace (16 * T * (size / (16 * T)))
          with (size / (16 * T) * (16 * T)) at 2 by ring.
        rewrite Z.div_mul by lia. reflexivity. }
  destruct Hr as (r & -> & Hrange & H16 & HT16).
  rewrite (getAdjustedCopySizeSM_value _ r)
    by (unfold u64 in *; first [lia | assumption]).
  fold T. f_equal.
  destruct (r <? defaultBufferSize * _MiB) eqn:E; reflect_comparisons.
  - lia.
  - symmetry. apply HT16. lia.
Qed.

Lemma SM_adjusted_size_idempotent_witness :
  exists r,
    getAdjustedCopySizeSM 512 (64 * _MiB + 4096) 108 = Some r
    /\ getAdjustedCopySizeSM 512 r 108 = Some r.
Proof.
  apply (SM_adjusted_size_idempotent 512 (64 * _MiB + 4096) 108).
  - vm_compute. split; [discriminate | reflexivity].
  - vm_compute. reflexivity.
Defined.

(** X13. What the truncation drops: fewer than 16 bytes of a buffer under
    the threshold, fewer than [16 * totalThreadCount] bytes of a larger
    one. *)
Theorem SM_adjusted_size_loss numThreadPerBlock size numSm :
  u64 size ->
  0 < totalThreadCount numThreadPerBlock numSm ->
  exists r,
    getAdjustedCopySizeSM numThreadPerBlock size numSm = Some r
    /\ (size < defaultBufferSize * _MiB -> size - r < sizeof_uint4)
    /\ (defaultBufferSize * _MiB <= size ->
        size - r
        < sizeof_uint4 * totalThreadCount numThreadPerBlock numSm).
Proof.
  intros Hsize HT.
  rewrite (getAdjustedCopySizeSM_value _ size) by assumption.
  set (T := totalThreadCount numThreadPerBlock numSm) in *.
  eexists. split; [reflexivity|]. unfold sizeof_uint4.
  destruct (size <? defaultBufferSize * _MiB) eqn:E; reflect_comparisons.
  - split; [intros _; divmod | lia].
  - split; [lia|]. intros _.
    pose proof (Z.div_mod size (16 * T) ltac:(lia)) as Hdm.
    pose proof (Z.mod_pos_bound size (16 * T) ltac:(lia)) as Hm. lia.
Qed.

Lemma SM_adjusted_size_loss_witness :
  exists r,
    getAdjustedCopySizeSM 512 (64 * _MiB + 4096) 108 = Some r
    /\ (64 * _MiB + 4096 < defaultBufferSize * _MiB ->
        64 * _MiB + 4096 - r < sizeof_uint4)
    /\ (defaultBufferSize * _MiB <= 64 * _MiB + 4096 ->
        64 * _MiB + 4096 - r < sizeof_uint4 * totalThreadCount 512 108).
Proof.
  apply (SM_adjusted_size_loss 512 (64 * _MiB + 4096) 108).
  - vm_compute. split; [discriminate | reflexivity].
  - vm_compute. reflexivity.
Defined.

(** X14. For a buffer under the threshold [copyKernel] launches blocks of
    [min(n, 1024)] threads, [n] the number of whole 16-byte elements, and
    never more threads than elements; it launches one thread per element -
    as many as the size it returns stands for - exactly when [n] is at most
    1024 or a multiple of 1024. *)
Theorem copyKernel_small_launch numThreadPerBlock size numSm :
  sizeof_uint4 <= size < defaultBufferSize * _MiB ->
  exists l,
    copyKernel numThreadPerBlock size numSm = Some l
    /\ block l = Z.min (size / 16) 1024
    /\ returned l = 16 * (size / 16)
    /\ grid l * block l <= size / 16
    /\ (grid l * block l = size / 16
        <-> size / 16 <= 1024 \/ (size / 16) mod 1024 = 0).
Proof.
  intros Hsize. unfold copyKernel.
  destruct (size <? defaultBufferSize * _MiB) eqn:E; reflect_comparisons;
    [|lia].
  destruct (small_numUint4 size) as [-> Hq]; [unfold sizeof_uint4 in *; lia|].
  assert (Hn : 1 <= size / 16) by (unfold sizeof_uint4 in *; divmod).
  set (n := size / 16) in *.
  rewrite (wrap32_small (Z.min n 1024)) by lia.
  rewrite (wrap32_small n) by lia.
  destruct (Z.min n 1024 =? 0) eqn:Hb; reflect_comparisons; [lia|].
  eexists. split; [reflexivity|]. cbn [grid block returned].
  split; [reflexivity|]. split.
  - unfold sizeof_uint4. rewrite wrap64_small by lia. lia.
  - destruct (Z_le_gt_dec n 1024) as [Hle|Hgt].
    + rewrite Z.min_l by lia. rewrite Z.div_same by lia.
      split; [lia|]. split; [intros _; left; lia | intros _; lia].
    + rewrite Z.min_r by lia. split; [divmod|].
      split; [intro H; right; divmod | intros [H|H]; [lia | divmod]].
Qed.

Lemma copyKernel_small_launch_witness :
  exists l,
    copyKernel 512 (_MiB + 16) 108 = Some l
    /\ block l = Z.min ((_MiB + 16) / 16) 1024
    /\ returned l = 16 * ((_MiB + 16) / 16)
    /\ grid l * block l <= (_MiB + 16) / 16
    /\ (grid l * block l = (_MiB + 16) / 16
        <-> (_MiB + 16) / 16 <= 1024 \/ ((_MiB + 16) / 16) mod 1024 = 0).
Proof.
  apply (copyKernel_small_launch 512 (_MiB + 16) 108).
  vm_compute. split; [discriminate | reflexivity].
Defined.

(** ** The copy kernels *)

(** *** Copied sets of elements *)

Lemma copied_none dst src m : copied dst src (fun _ => False) m m.
Proof. intro a. split; [contradiction | reflexivity]. Qed.

Lemma copied_ext dst src (S S' : Z -> Prop) m m' :
  (forall e, S e <-> S' e) -> copied dst src S m m' -> copied dst src S' m m'.
Proof.
  intros Heq Hc a. destruct (Hc a) as [Hin Hout]. split.
  - intro H. apply Hin. apply Heq. assumption.
  - intro H. apply Hout. intro H'. apply H. apply Heq. assumption.
Qed.

(** Reading a source element after some elements have been copied: the
    source region is none of the destination's elements. *)
Lemma copied_load dst src S N m m1 e k :
  copied dst src S m m1 ->
  (forall x, S x -> 0 <= x < N) ->
  disjoint dst src (sizeof_uint4 * N) ->
  0 <= e < N -> 0 <= k < sizeof_uint4 ->
  load_uint4 m1 (src + sizeof_uint4 * e) k = m (src + sizeof_uint4 * e + k).
Proof.
  intros Hc HS Hdis He Hk. unfold load_uint4.
  apply (Hc (src + sizeof_uint4 * e + k)). intro Hin. apply HS in Hin.
  unfold sizeof_uint4 in *.
  apply (Hdis (16 * e + k) (src + 16 * e + k - dst)); [lia | divmod | lia].
Qed.

(** Writing one more element. *)
Lemma copied_store dst src (S : Z -> Prop) m m1 e v :
  copied dst src S m m1 ->
  (forall k, 0 <= k < sizeof_uint4 -> v k = m (src + sizeof_uint4 * e + k)) ->
  copied dst src (fun x => S x \/ x = e) m
         (store_uint4 m1 (dst + sizeof_uint4 * e) v).
Proof.
  intros Hc Hv a. unfold store_uint4, cuMemcpy, sizeof_uint4 in *.
  destruct (Z.eq_dec ((a - dst) / 16) e) as [He|He].
  - assert (Hin : dst + 16 * e <= a < dst + 16 * e + 16) by divmod.
    case_comparisons; try lia.
    split; [|intro H; exfalso; apply H; right; assumption].
    intros _. rewrite Z.add_0_l, Hv by lia. f_equal. lia.
  - assert (Hout : ~ (dst + 16 * e <= a < dst + 16 * e + 16)) by divmod.
    destruct (Hc a) as [Hin' Hout'].
    case_comparisons; try lia.
    all: split; [intros [H|H]; [apply Hin'; assumption | contradiction]
                | intro H; apply Hout'; intro H'; apply H; left; assumption].
Qed.

(** What [copied] says of bytes, for the set of the first [N] elements. *)
Lemma copied_prefix dst src N m m' :
  0 <= N ->
  copied dst src (fun x => 0 <= x < N) m m' ->
  (forall o, 0 <= o < sizeof_uint4 * N -> m' (dst + o) = m (src + o))
  /\ (forall a, ~ (dst <= a < dst + sizeof_uint4 * N) -> m' a = m a).
Proof.
  intros HN Hc. unfold copied, sizeof_uint4 in *. split.
  - intros o Ho. destruct (Hc (dst + o)) as [Hin _].
    replace (dst + o - dst) with o in Hin by lia. apply Hin. divmod.
  - intros a Ha. apply (Hc a). divmod.
Qed.

(** *** The threads of a launch *)

Lemma in_threads_of gridDim blockDim t :
  In t (threads_of gridDim blockDim)
  <-> exists b i : nat,
        t = {| blockIdx := Z.of_nat b; threadIdx := Z.of_nat i |}
        /\ (b < Z.to_nat gridDim)%nat /\ (i < Z.to_nat blockDim)%nat.
Proof.
  unfold threads_of. rewrite in_flat_map. split.
  - intros (b & Hb & Ht). apply in_map_iff in Ht.
    destruct Ht as (i & <- & Hi). apply in_seq in Hb. apply in_seq in Hi.
    exists b, i. split; [reflexivity|]. lia.
  - intros (b & i & -> & Hb & Hi). exists b. split.
    + apply in_seq. lia.
    + apply in_map_iff. exists i. split; [reflexivity|]. apply in_seq. lia.
Qed.

(** The global index of a thread, and the thread of a global index. *)
Lemma thread_index_range gridDim blockDim t :
  In t (threads_of gridDim blockDim) ->
  0 <= blockIdx t /\ 0 <= threadIdx t < blockDim
  /\ 0 <= blockIdx t * blockDim + threadIdx t < gridDim * blockDim.
Proof.
  intro Ht. apply in_threads_of in Ht.
  destruct Ht as (b & i & -> & Hb & Hi). cbn [blockIdx threadIdx]. nia.
Qed.

Lemma thread_of_index gridDim blockDim x :
  0 < blockDim -> 0 <= x < gridDim * blockDim ->
  exists t, In t (threads_of gridDim blockDim)
            /\ blockIdx t * blockDim + threadIdx t = x.
Proof.
  intros Hb Hx.
  exists {| blockIdx := Z.of_nat (Z.to_nat (x / blockDim));
            threadIdx := Z.of_nat (Z.to_nat (x mod blockDim)) |}.
  pose proof (Z.div_mod x blockDim ltac:(lia)) as Hdm.
  pose proof (Z.mod_pos_bound x blockDim Hb) as Hm.
  assert (Hq : 0 <= x / blockDim < gridDim).
  { split; [apply Z.div_pos; lia|]. apply Z.div_lt_upper_bound; lia. }
  split.
  - apply in_threads_of. do 2 eexists. split; [reflexivity|]. lia.
  - cbn [blockIdx threadIdx]. rewrite !Z2Nat.id by lia. lia.
Qed.

(** Running the threads of a schedule, each of which copies a set of
    elements of its own. *)
Lemma run_threads_copied dst src N m body (el : thread -> Z -> Prop)
    schedule :
  (forall t (S : Z -> Prop) m1,
      In t schedule ->
      copied dst src S m m1 -> (forall x, S x -> 0 <= x < N) ->
      exists m', body t m1 = Some m'
                 /\ copied dst src (fun x => S x \/ el t x) m m') ->
  (forall t x, In t schedule -> el t x -> 0 <= x < N) ->
  forall (S : Z -> Prop) m1,
    copied dst src S m m1 -> (forall x, S x -> 0 <= x < N) ->
    exists m',
      run_threads body schedule m1 = Some m'
      /\ copied dst src
                (fun x => S x \/ exists t, In t schedule /\ el t x) m m'.
Proof.
  induction schedule as [|t rest IH]; intros Hbody Hel S m1 Hc HS;
    cbn [run_threads].
  - exists m1. split; [reflexivity|].
    apply (copied_ext dst src S); [|assumption].
    intro e. split; [auto | intros [H | (t & [] & _)]; assumption].
  - destruct (Hbody t S m1 (or_introl eq_refl) Hc HS) as (m2 & -> & Hc2).
    destruct (IH (fun t' S' m' H => Hbody t' S' m' (or_intror H))
                 (fun t' x H => Hel t' x (or_intror H))
                 (fun x => S x \/ el t x) m2 Hc2) as (m' & Hrun & Hc').
    { intros x [H|H]; [apply HS; assumption|].
      apply (Hel t); [left; reflexivity | assumption]. }
    exists m'. split; [assumption|].
    apply (copied_ext dst src
             (fun x => (S x \/ el t x) \/ exists t', In t' rest /\ el t' x));
      [|assumption].
    intro e. split.
    + intros [[H|H] | (t' & Ht' & H)]; [left; assumption | |].
      * right. exists t. split; [left; reflexivity | assumption].
      * right. exists t'. split; [right; assumption | assumption].
    + intros [H | (t' & [<- | Ht'] & H)].
      * left. left. assumption.
      * left. right. assumption.
      * right. exists t'. split; assumption.
Qed.

(** *** [simpleCopyKernel] *)

Lemma simpleCopyKernel_loop_copied dst src N m blockDim t loopCount :
  loopCount < 2 ^ 32 ->
  0 <= blockIdx t * blockDim < 2 ^ 32 ->
  0 <= blockIdx t * blockDim + threadIdx t < N ->
  N <= 2 ^ 31 ->
  disjoint dst src (sizeof_uint4 * N) ->
  forall fuel i (S : Z -> Prop) m1,
    0 <= i <= loopCount ->
    (Z.to_nat (loopCount - i) < fuel)%nat ->
    copied dst src S m m1 -> (forall x, S x -> 0 <= x < N) ->
    i < loopCount \/ S (blockIdx t * blockDim + threadIdx t) ->
    exists m',
      simpleCopyKernel_loop fuel blockDim t loopCount dst src i m1 = Some m'
      /\ copied dst src
                (fun x => S x \/ x = blockIdx t * blockDim + threadIdx t)
                m m'.
Proof.
  intros Hloop Hblock Hidx HN Hdis.
  set (idx := blockIdx t * blockDim + threadIdx t) in *.
  assert (Hint : to_int32 (wrap32 (blockIdx t * blockDim) + threadIdx t)
                 = idx).
  { rewrite (wrap32_small (blockIdx t * blockDim)) by assumption.
    fold idx. unfold to_int32. rewrite wrap32_small by lia.
    destruct (idx <? 2 ^ 31) eqn:E; reflect_comparisons; lia. }
  assert (Hoff : wrap64 (idx * sizeof_uint4) = sizeof_uint4 * idx)
    by (unfold sizeof_uint4; rewrite wrap64_small; lia).
  induction fuel as [|fuel IH]; intros i S m1 Hi Hfuel Hc HS Hdone; [lia|].
  cbn [simpleCopyKernel_loop].
  destruct (i <? loopCount) eqn:Hlt; reflect_comparisons.
  - rewrite Hint, Hoff. rewrite (wrap32_small (i + 1)) by lia.
    assert (Hc1 : copied dst src (fun x => S x \/ x = idx) m
                    (store_uint4 m1 (dst + sizeof_uint4 * idx)
                                 (load_uint4 m1 (src + sizeof_uint4 * idx)))).
    { apply copied_store; [assumption|]. intros k Hk.
      apply (copied_load dst src S N); assumption || lia. }
    destruct (IH (i + 1) (fun x => S x \/ x = idx) _ ltac:(lia) ltac:(lia) Hc1)
      as (m' & Hrun & Hc').
    + intros x [H | ->]; [apply HS; assumption | lia].
    + right. right. reflexivity.
    + exists m'. split; [assumption|].
      apply (copied_ext dst src (fun x => (S x \/ x = idx) \/ x = idx));
        [|assumption].
      intro e. tauto.
  - exists m1. split; [reflexivity|].
    apply (copied_ext dst src S); [|assumption].
    intro e. split; [auto|]. intros [H | ->]; [assumption|].
    destruct Hdone; [lia | assumption].
Qed.

(** The threads of a launch of [simpleCopyKernel] copy one element each. *)
Lemma simpleCopyKernel_launch_copied
    fuel gridDim blockDim loopCount dst src schedule m :
  0 < gridDim -> 0 < blockDim -> gridDim * blockDim <= 2 ^ 31 ->
  1 <= loopCount < 2 ^ 32 ->
  (Z.to_nat loopCount < fuel)%nat ->
  disjoint dst src (sizeof_uint4 * (gridDim * blockDim)) ->
  Permutation schedule (threads_of gridDim blockDim) ->
  exists m',
    run_threads (simpleCopyKernel fuel blockDim loopCount dst src) schedule m
    = Some m'
    /\ copied dst src (fun x => 0 <= x < gridDim * blockDim) m m'.
Proof.
  intros Hg Hb HN Hloop Hfuel Hdis Hperm.
  set (N := gridDim * blockDim) in *.
  assert (Hin : forall t, In t schedule -> In t (threads_of gridDim blockDim))
    by (intros t Ht; apply (Permutation_in _ Hperm); assumption).
  destruct (run_threads_copied dst src N m
              (simpleCopyKernel fuel blockDim loopCount dst src)
              (fun t x => x = blockIdx t * blockDim + threadIdx t)
              schedule) with (S := fun _ : Z => False) (m1 := m)
    as (m' & Hrun & Hc).
  - intros t S m1 Ht Hc HS. apply Hin in Ht.
    apply thread_index_range in Ht. unfold simpleCopyKernel.
    apply (simpleCopyKernel_loop_copied dst src N);
      try assumption; try lia.
  - intros t x Ht ->. apply Hin in Ht. apply thread_index_range in Ht.
    fold N in Ht. lia.
  - apply copied_none.
  - contradiction.
  - exists m'. split; [assumption|].
    apply (copied_ext dst src
             (fun x => False \/ exists t, In t schedule
                          /\ x = blockIdx t * blockDim + threadIdx t));
      [|assumption].
    intro e. split.
    + intros [[] | (t & Ht & ->)]. apply Hin in Ht.
      apply thread_index_range in Ht. fold N in Ht. lia.
    + intro He. right.
      destruct (thread_of_index gridDim blockDim e Hb He) as (t & Ht & Hx).
      exists t. split; [|lia].
      apply (Permutation_in _ (Permutation_sym Hperm)). assumption.
Qed.

(** X15. A launch of [simpleCopyKernel] with a loop count of at least 1
    copies one 16-byte element per thread: the first [gridDim * blockDim]
    elements of the source go to the same places of the destination,
    whatever the order the threads run in, and every other byte is left as
    it was. *)
Theorem simpleCopyKernel_copies
    fuel gridDim blockDim loopCount dst src schedule m :
  0 < gridDim -> 0 < blockDim -> gridDim * blockDim <= 2 ^ 31 ->
  1 <= loopCount < 2 ^ 32 ->
  (Z.to_nat loopCount < fuel)%nat ->
  disjoint dst src (sizeof_uint4 * (gridDim * blockDim)) ->
  Permutation schedule (threads_of gridDim blockDim) ->
  exists m',
    run_threads (simpleCopyKernel fuel blockDim loopCount dst src) schedule m
    = Some m'
    /\ (forall o, 0 <= o < sizeof_uint4 * (gridDim * blockDim) ->
                  m' (dst + o) = m (src + o))
    /\ (forall a,
          ~ (dst <= a < dst + sizeof_uint4 * (gridDim * blockDim)) ->
          m' a = m a).
Proof.
  intros Hg Hb HN Hloop Hfuel Hdis Hperm.
  destruct (simpleCopyKernel_launch_copied fuel gridDim blockDim loopCount
              dst src schedule m) as (m' & Hrun & Hc); try assumption.
  exists m'. split; [assumption|]. apply copied_prefix; [nia | assumption].
Qed.

Lemma simpleCopyKernel_copies_witness :
  exists m',
    run_threads (simpleCopyKernel 2 2 1 0 64) (rev (threads_of 2 2))
                (fun a => a)
    = Some m'
    /\ (forall o, 0 <= o < sizeof_uint4 * (2 * 2) -> m' (0 + o) = 64 + o)
    /\ (forall a, ~ (0 <= a < 0 + sizeof_uint4 * (2 * 2)) -> m' a = a).
Proof.
  apply (simpleCopyKernel_copies 2 2 2 1 0 64 (rev (threads_of 2 2))
                                 (fun a => a)); try lia.
  - intros i j Hi Hj. unfold sizeof_uint4 in *. lia.
  - apply Permutation_sym, Permutation_rev.
Defined.

(** *** [stridingMemcpyKernel] *)



Section StridingThread.

(** One thread, of global index [from], of a launch of [T] threads that
    copies [chunk] elements per thread. *)
Variables (dst src N T from chunk d0 s0 : Z) (m : memory).
Hypothesis HT : 0 < T.
Hypothesis Hfrom : 0 <= from < T.
Hypothesis Hchunk : 0 <= chunk.
Hypothesis HN : N = T * chunk.
Hypothesis Hdis : disjoint dst src (sizeof_uint4 * N).
Hypothesis Hd0 : d0 = dst + sizeof_uint4 * from.
Hypothesis Hs0 : s0 = src + sizeof_uint4 * from.





End StridingThread.

Lemma disjoint_le dst src n n' :
  n' <= n -> disjoint dst src n -> disjoint dst src n'.
Proof. intros Hle Hdis i j Hi Hj. apply Hdis; lia. Qed.





(** *** [copyKernel] and the kernel it launches *)

Section CopyKernelRun.

Variable numThreadPerBlock : Z.
Variable schedule : list thread -> list thread.
Hypothesis schedule_permutes : forall l, Permutation (schedule l) l.

(** Under the threshold: [simpleCopyKernel] on [n / block] blocks of [block
    = min(n, 1024)] threads, [n] the number of whole elements. *)
Lemma copyKernel_run_small fuel dst src size numSm loopCount m :
  sizeof_uint4 <= size < defaultBufferSize * _MiB ->
  1 <= loopCount < 2 ^ 32 ->
  (Z.to_nat loopCount < fuel)%nat ->
  disjoint dst src size ->
  exists m',
    copyKernel_run numThreadPerBlock fuel schedule dst src size numSm
                   loopCount m
    = Some (m', 16 * (size / 16))
    /\ copied dst src
              (fun x => 0 <= x < size / 16 / Z.min (size / 16) 1024
                                 * Z.min (size / 16) 1024)
              m m'.
Proof.
  intros Hsize Hloop Hfuel Hdis. unfold copyKernel_run.
  destruct (size <? defaultBufferSize * _MiB) eqn:E; reflect_comparisons;
    [|lia].
  destruct (small_numUint4 size) as [-> Hq]; [unfold sizeof_uint4 in *; lia|].
  assert (Hn : 1 <= size / 16) by (unfold sizeof_uint4 in *; divmod).
  assert (Hn16 : 16 * (size / 16) <= size) by divmod.
  set (n := size / 16) in *.
  rewrite (wrap32_small (Z.min n 1024)) by lia.
  rewrite (wrap32_small n) by lia.
  destruct (Z.min n 1024 =? 0) eqn:Hb; reflect_comparisons; [lia|].
  set (b := Z.min n 1024) in *.
  assert (Hg : 1 <= n / b /\ n / b * b <= n) by (unfold b; divmod).
  destruct (simpleCopyKernel_launch_copied fuel (n / b) b loopCount dst src
              (schedule (threads_of (n / b) b)) m)
    as (m' & -> & Hc); try assumption; try lia.
  - apply (disjoint_le dst src size); [unfold sizeof_uint4; lia | assumption].
  - apply schedule_permutes.
  - exists m'. split; [|assumption].
    unfold sizeof_uint4. rewrite wrap64_small by lia. do 2 f_equal. lia.
Qed.



End CopyKernelRun.



(** X18. For a size under the threshold of more than 1024 whole elements,
    and not a multiple of 1024 of them, [copyKernel] returns the size of all
    [n] whole elements but the kernel it launches copies only the first
    [1024 * (n / 1024)] of them: the remaining ones, counted in the size
    returned, and every byte after them are left as they were. *)
Theorem copyKernel_leaves_the_tail
    numThreadPerBlock schedule fuel dst src size numSm loopCount m :
  (forall l, Permutation (schedule l) l) ->
  size < defaultBufferSize * _MiB ->
  1024 < size / 16 -> (size / 16) mod 1024 <> 0 ->
  1 <= loopCount < 2 ^ 32 ->
  (Z.to_nat loopCount < fuel)%nat ->
  disjoint dst src size ->
  exists m',
    copyKernel_run numThreadPerBlock fuel schedule dst src size numSm
                   loopCount m = Some (m', 16 * (size / 16))
    /\ 16 * (1024 * (size / 16 / 1024)) < 16 * (size / 16)
    /\ (forall o, 0 <= o < 16 * (1024 * (size / 16 / 1024)) ->
                  m' (dst + o) = m (src + o))
    /\ (forall o, 16 * (1024 * (size / 16 / 1024)) <= o ->
                  m' (dst + o) = m (dst + o)).
Proof.
  intros Hperm Hsize Hn Hmod Hloop Hfuel Hdis.
  destruct (copyKernel_run_small numThreadPerBlock schedule Hperm fuel
              dst src size numSm loopCount m)
    as (m' & Hrun & Hc); try assumption.
  { unfold sizeof_uint4. split; [divmod | assumption]. }
  exists m'. split; [assumption|]. split; [divmod|].
  rewrite Z.min_r in Hc by lia. rewrite Z.mul_comm in Hc.
  apply copied_prefix in Hc; [|divmod].
  unfold sizeof_uint4 in Hc. destruct Hc as [Hin Hout].
  split; [assumption|].
  intros o Ho. apply Hout. lia.
Qed.

Lemma copyKernel_leaves_the_tail_witness :
  exists m',
    copyKernel_run 512 2 (@rev thread) 0 134217728 (_MiB + 16) 108 1
                   (fun a => a) = Some (m', 16 * ((_MiB + 16) / 16))
    /\ 16 * (1024 * ((_MiB + 16) / 16 / 1024)) < 16 * ((_MiB + 16) / 16)
    /\ (forall o, 0 <= o < 16 * (1024 * ((_MiB + 16) / 16 / 1024)) ->
                  m' (0 + o) = 134217728 + o)
    /\ (forall o, 16 * (1024 * ((_MiB + 16) / 16 / 1024)) <= o ->
                  m' (0 + o) = 0 + o).
Proof.
  apply (copyKernel_leaves_the_tail
           512 (@rev thread) 2 0 134217728 (_MiB + 16) 108 1 (fun a => a)).
  - intro l. apply Permutation_sym, Permutation_rev.
  - vm_compute. reflexivity.
  - vm_compute. reflexivity.
  - vm_compute. discriminate.
  - lia.
  - vm_compute. lia.
  - intros i j Hi Hj. unfold _MiB in *. lia.
Defined.

(** ** The data of one sample *)

(** *** The copy engine's [memcpyFunc] *)

(** Repeating the copy changes nothing more: after any number of passes the
    destination holds the source, and no other byte has changed. *)
Lemma memcpyAsync_loop_copied dst src copySize loopCount m :
  loopCount < 2 ^ 32 ->
  disjoint dst src copySize ->
  forall fuel l m1,
    0 <= l <= loopCount ->
    (Z.to_nat (loopCount - l) < fuel)%nat ->
    (forall a, ~ (dst <= a < dst + copySize) -> m1 a = m a) ->
    l < loopCount
    \/ (forall o, 0 <= o < copySize -> m1 (dst + o) = m (src + o)) ->
    exists m',
      memcpyAsync_loop fuel dst src copySize loopCount l m1 = Some m'
      /\ (forall o, 0 <= o < copySize -> m' (dst + o) = m (src + o))
      /\ (forall a, ~ (dst <= a < dst + copySize) -> m' a = m a).
Proof.
  intros Hloop Hdis.
  induction fuel as [|fuel IH]; intros l m1 Hl Hfuel Hout Hdone; [lia|].
  cbn [memcpyAsync_loop].
  destruct (l <? loopCount) eqn:Hlt; reflect_comparisons.
  - rewrite (wrap32_small (l + 1)) by lia.
    apply IH; [lia | lia | |].
    + intros a Ha. unfold cuMemcpy. case_comparisons; try lia.
      all: apply Hout; assumption.
    + right. intros o Ho. unfold cuMemcpy. case_comparisons; try lia.
      replace (src + (dst + o - dst)) with (src + o) by lia.
      apply Hout. intro Hin.
      apply (Hdis o (src + o - dst)); lia.
  - exists m1. split; [reflexivity|]. split; [|assumption].
    destruct Hdone as [H|H]; [lia | assumption].
Qed.

(** X19. The copy engine's [memcpyFunc] with a loop count of at least 1
    leaves the first [copySize] bytes of the source in the destination,
    changes no other byte and returns [copySize], however often it repeats
    the copy. *)
Theorem memcpyFuncCE_copies fuel dst src copySize loopCount m :
  1 <= loopCount < 2 ^ 32 ->
  (Z.to_nat loopCount < fuel)%nat ->
  disjoint dst src copySize ->
  exists m',
    memcpyFuncCE fuel dst src copySize loopCount m = Some (m', copySize)
    /\ (forall o, 0 <= o < copySize -> m' (dst + o) = m (src + o))
    /\ (forall a, ~ (dst <= a < dst + copySize) -> m' a = m a).
Proof.
  intros Hloop Hfuel Hdis. unfold memcpyFuncCE.
  destruct (memcpyAsync_loop_copied dst src copySize loopCount m
              (proj2 Hloop) Hdis fuel 0 m)
    as (m' & -> & Hin & Hout); try lia.
  exists m'. split; [reflexivity|]. split; assumption.
Qed.

Lemma memcpyFuncCE_copies_witness :
  exists m',
    memcpyFuncCE 4 0 100 10 3 (fun a => a) = Some (m', 10)
    /\ (forall o, 0 <= o < 10 -> m' (0 + o) = 100 + o)
    /\ (forall a, ~ (0 <= a < 0 + 10) -> m' a = a).
Proof.
  apply (memcpyFuncCE_copies 4 0 100 10 3 (fun a => a)).
  - lia.
  - vm_compute. lia.
  - intros i j Hi Hj. lia.
Defined.

Lemma memcpyAsync_loop_counter_wraps dst src copySize loopCount :
  2 ^ 32 <= loopCount ->
  forall fuel l m,
    0 <= l < 2 ^ 32 ->
    memcpyAsync_loop fuel dst src copySize loopCount l m = None.
Proof.
  intros Hloop. induction fuel as [|fuel IH]; intros l m Hl; [reflexivity|].
  cbn [memcpyAsync_loop].
  destruct (l <? loopCount) eqn:Hlt; reflect_comparisons; [|lia].
  apply IH. unfold wrap32. apply Z.mod_pos_bound. lia.
Qed.

(** X20. With a loop count of 2^32 or more the copy engine's [memcpyFunc]
    does not return: its 32-bit counter [l] wraps round before it reaches
    the 64-bit loop count. *)
Theorem memcpyFuncCE_of_huge_loopCount_does_not_return
    fuel dst src copySize loopCount m :
  2 ^ 32 <= loopCount ->
  memcpyFuncCE fuel dst src copySize loopCount m = None.
Proof.
  intro Hloop. unfold memcpyFuncCE.
  rewrite memcpyAsync_loop_counter_wraps by lia. reflexivity.
Qed.

Lemma memcpyFuncCE_of_huge_loopCount_does_not_return_witness :
  memcpyFuncCE 1000 0 100 10 (2 ^ 32) (fun a => a) = None.
Proof.
  apply (memcpyFuncCE_of_huge_loopCount_does_not_return
           1000 0 100 10 (2 ^ 32) (fun a => a)).
  lia.
Defined.

(** *** Fill, copy, check *)



Section SampleProofs.

Variable numThreadPerBlock : Z.
Variable schedule : list thread -> list thread.
Variable WARMUP_COUNT : Z.
Hypothesis schedule_permutes : forall l, Permutation (schedule l) l.
Hypothesis warm : 1 <= WARMUP_COUNT < 2 ^ 32.



End SampleProofs.


(** ** More on the orchestrator's output *)

Section Lines.

Variable numThreadPerBlock : Z.
Variable returnAppropriateMetric : list float -> float.
Variable mech : mechanism.
Variable bandwidthValue : BandwidthValue.
Variable loopCount : Z.





End Lines.


(** ** More on the spin gate *)

Lemma spin_never_times_out fuel d endTime :
  forall reads clocks,
    spin fuel d ones64 endTime reads clocks <> Some TimedOut.
Proof.
  induction fuel as [|fuel IH]; intros reads clocks; cbn [spin];
    [discriminate|].
  destruct (latch_at d reads =? 0); [|discriminate].
  rewrite Z.eqb_refl. cbn [negb]. apply IH.
Qed.

(** X23. Launched with the sentinel [~0ULL], [spinKernelDevice] never leaves
    its loop through the timeout branch, whatever the latch and the clock
    do. *)
Theorem sentinel_never_times_out fuel d :
  spinKernelDevice fuel d ones64 <> Some TimedOut.
Proof. unfold spinKernelDevice. apply spin_never_times_out. Qed.

Lemma spin_released d timeoutClocks endTime k :
  latch_at d k <> 0 ->
  forall fuel reads clocks,
    (reads <= k)%nat -> (k - reads < fuel)%nat ->
    (forall j, (reads <= j < k)%nat -> latch_at d j = 0) ->
    timeoutClocks = ones64
    \/ (forall j, (reads <= j < k)%nat ->
                  wrap64 (clock_at d (clocks + (j - reads))) <= endTime) ->
    spin fuel d timeoutClocks endTime reads clocks = Some Released.
Proof.
  intros Hk. induction fuel as [|fuel IH]; intros reads clocks Hle Hfuel
    Hzero Hclock; [lia|].
  cbn [spin].
  destruct (Nat.eq_dec reads k) as [-> | Hne].
  - destruct (latch_at d k =? 0) eqn:E; reflect_comparisons;
      [contradiction | reflexivity].
  - rewrite Hzero by lia. rewrite Z.eqb_refl.
    destruct (timeoutClocks =? ones64) eqn:Hs; reflect_comparisons;
      cbn [negb].
    + apply IH; try lia;
        first [left; assumption | intros j Hj; apply Hzero; lia].
    + destruct Hclock as [Hclock | Hclock]; [contradiction|].
      pose proof (Hclock reads ltac:(lia)) as H0.
      replace (clocks + (reads - reads))%nat with clocks in H0 by lia.
      destruct (wrap64 (clock_at d clocks) >? endTime) eqn:Hgt.
      * apply Z.gtb_lt in Hgt. lia.
      * apply IH; try lia;
          first [ intros j Hj; apply Hzero; lia
                | right; intros j Hj;
                  replace (S clocks + (j - S reads))%nat
                    with (clocks + (j - reads))%nat by lia;
                  apply Hclock; lia ].
Qed.

(** X24. The gate opens at the first read of the latch that is not 0: when
    the timeout is disabled or no earlier reading of the clock is past the
    end time, [spinKernelDevice] leaves its loop released, not timed out. *)
Theorem spinKernelDevice_released fuel d timeoutClocks k :
  (k < fuel)%nat ->
  (forall j, (j < k)%nat -> latch_at d j = 0) ->
  latch_at d k <> 0 ->
  timeoutClocks = ones64
  \/ (forall j, (j < k)%nat ->
                wrap64 (clock_at d (S j))
                <= wrap64 (clock_at d 0 + timeoutClocks)) ->
  spinKernelDevice fuel d timeoutClocks = Some Released.
Proof.
  intros Hfuel Hzero Hk Hclock. unfold spinKernelDevice.
  apply (spin_released d timeoutClocks _ k Hk); try lia.
  - intros j Hj. apply Hzero. lia.
  - destruct Hclock as [H|H]; [left; assumption|].
    right. intros j Hj.
    replace (1 + (j - 0))%nat with (S j) by lia. apply H. lia.
Qed.

Lemma spinKernelDevice_released_witness :
  spinKernelDevice 10
    {| latch_at := fun k => if (k <? 3)%nat then 0 else 1;
       clock_at := fun k => 5000000 + Z.of_nat k |} 1000
  = Some Released.
Proof.
  apply (spinKernelDevice_released 10 _ 1000 3).
  - lia.
  - intros j Hj. cbn [latch_at].
    destruct (j <? 3)%nat eqn:E; [reflexivity|].
    apply Nat.ltb_ge in E. lia.
  - cbn [latch_at]. discriminate.
  - right. intros j Hj. cbn [clock_at].
    rewrite !wrap64_small by lia. lia.
Defined.

(** X25. With the timeout enabled and the latch held at 0, the kernel gives
    up at the first reading of the clock that is past the end time. *)
Theorem spinKernelDevice_times_out fuel d timeoutClocks k :
  (k < fuel)%nat ->
  timeoutClocks <> ones64 ->
  (forall j, (j <= k)%nat -> latch_at d j = 0) ->
  (forall j, (j < k)%nat ->
             wrap64 (clock_at d (S j))
             <= wrap64 (clock_at d 0 + timeoutClocks)) ->
  wrap64 (clock_at d 0 + timeoutClocks) < wrap64 (clock_at d (S k)) ->
  spinKernelDevice fuel d timeoutClocks = Some TimedOut.
Proof.
  intros Hfuel Hs Hzero Hclock Hpast. unfold spinKernelDevice.
  set (endTime := wrap64 (clock_at d 0 + timeoutClocks)) in *.
  assert (Hgen : forall fuel reads,
             (reads <= k)%nat -> (k - reads < fuel)%nat ->
             spin fuel d timeoutClocks endTime reads (S reads)
             = Some TimedOut).
  { clear fuel Hfuel. induction fuel as [|fuel IH]; intros reads Hle Hfuel;
      [lia|].
    cbn [spin]. rewrite Hzero by lia. rewrite Z.eqb_refl.
    destruct (timeoutClocks =? ones64) eqn:E; reflect_comparisons;
      [contradiction|]. cbn [negb].
    destruct (Nat.eq_dec reads k) as [-> | Hne].
    - destruct (wrap64 (clock_at d (S k)) >? endTime) eqn:Hgt;
        [reflexivity|].
      assert (~ wrap64 (clock_at d (S k)) > endTime)
        by (intro H; apply Z.gtb_gt in H; congruence).
      lia.
    - destruct (wrap64 (clock_at d (S reads)) >? endTime) eqn:Hgt.
      + apply Z.gtb_lt in Hgt. pose proof (Hclock reads ltac:(lia)). lia.
      + apply IH; lia. }
  apply Hgen; lia.
Qed.

Lemma spinKernelDevice_times_out_witness :
  spinKernelDevice 10 held_device 2 = Some TimedOut.
Proof.
  apply (spinKernelDevice_times_out 10 held_device 2 2).
  - lia.
  - discriminate.
  - intros j Hj. reflexivity.
  - intros j Hj. cbn [held_device clock_at].
    rewrite !wrap64_small by lia. lia.
  - cbn [held_device clock_at]. rewrite !wrap64_small by lia. lia.
Defined.
